(** * simple-vector: ArrayPtr and SimpleVector over an explicit heap

    A shallow embedding of [array_ptr.h] and [simple_vector.h].  Raw
    pointers are (block, offset) pairs into a heap of arrays, [size_t] is
    a 64-bit unsigned number with its wrap-around written out, and every
    member function is a computation in a small state-and-error monad
    whose outcomes are a normal return, a C++ exception, or undefined
    behaviour. *)

From stdpp Require Import gmap list.

Set Default Proof Using "Type".

(** ** The element type

    What the templates ask of [Type]: value-initialisation [Type{}],
    [operator==], [operator<], and the state a moved-from object is left
    in (the identity for scalar types). *)

Class Element (T : Type) := {
  dflt : T;
  elt_eqb : T → T → bool;
  elt_ltb : T → T → bool;
  moved_from : T → T
}.

#[export] Instance Z_Element : Element Z :=
  {| dflt := 0%Z; elt_eqb := Z.eqb; elt_ltb := Z.ltb; moved_from := λ x, x |}.

(** ** size_t *)

Abbreviation size_t := N (only parsing).

Definition SIZE_MOD : N := 2 ^ 64.

Definition size_add (a b : size_t) : size_t := ((a + b) mod SIZE_MOD)%N.
Definition size_mul (a b : size_t) : size_t := ((a * b) mod SIZE_MOD)%N.
Definition size_sub (a b : size_t) : size_t := ((a + SIZE_MOD - b) mod SIZE_MOD)%N.

(** Conversion of a [ptrdiff_t] to [size_t]. *)
Definition size_of_Z (z : Z) : size_t := Z.to_N (z mod Z.of_N SIZE_MOD).

(** ** Pointers *)

Abbreviation loc := positive (only parsing).

(** A pointer is an offset into a block; the null pointer has no block. *)
Record ptr := Ptr { ptr_block : option loc; ptr_off : nat }.

#[export] Instance ptr_eq_dec : EqDecision ptr.
Proof. solve_decision. Defined.

Definition nullptr : ptr := Ptr None 0.

Definition ptr_add (p : ptr) (n : size_t) : ptr :=
  Ptr (ptr_block p) (ptr_off p + N.to_nat n).

Definition ptr_next (p : ptr) : ptr := Ptr (ptr_block p) (S (ptr_off p)).

Definition ptr_prev (p : ptr) : option ptr :=
  match ptr_off p with
  | O => None
  | S o => Some (Ptr (ptr_block p) o)
  end.

(** [last - first]; defined only inside one array. *)
Definition ptr_diff (last first : ptr) : option Z :=
  if decide (ptr_block last = ptr_block first)
  then Some (Z.of_nat (ptr_off last) - Z.of_nat (ptr_off first))%Z
  else None.

(** ** Heap, outcomes and the monad *)

Inductive event := Alloc (b : loc) (n : size_t) | Free (b : loc).

Inductive exn := out_of_range | bad_alloc.

(** The largest array [new Type[n]] hands out: no object is larger than
    [PTRDIFF_MAX] bytes. *)
Definition max_alloc : N := 2 ^ 63 - 1.

Section Model.
Context {T : Type} `{!Element T}.

(** A slot holds [None] until the program has given it a value. *)
Abbreviation cell := (option T) (only parsing).

Record state := State {
  heap : gmap loc (list cell);
  trace : list event
}.

Inductive result (A : Type) :=
  | Ok (a : A) (s : state)
  | Throw (e : exn) (s : state)
  | UB.
Arguments Ok {A} a s.
Arguments Throw {A} e s.
Arguments UB {A}.

Definition M (A : Type) : Type := state → result A.

Definition ret {A} (a : A) : M A := λ s, Ok a s.

Definition bind {A B} (m : M A) (k : A → M B) : M B :=
  λ s, match m s with
       | Ok a s' => k a s'
       | Throw e s' => Throw e s'
       | UB => UB
       end.

Definition throw {A} (e : exn) : M A := λ s, Throw e s.
Definition ub {A} : M A := λ _, UB.

Definition lift_opt {A} (o : option A) : M A :=
  match o with Some a => ret a | None => ub end.

#[global] Instance M_ret : MRet M := @ret.
#[global] Instance M_bind : MBind M := λ A B k m, bind m k.

Definition upd_block (b : loc) (blk : list cell) (s : state) : state :=
  State (<[b := blk]> (heap s)) (trace s).

(** [new Type[n]] *)
Definition new_array (n : size_t) : M ptr := λ s,
  if (max_alloc <? n)%N then Throw bad_alloc s
  else
    let b := fresh (dom (heap s)) in
    Ok (Ptr (Some b) 0)
       (State (<[b := replicate (N.to_nat n) None]> (heap s))
              (trace s ++ [Alloc b n])).

(** [delete[] p] *)
Definition delete_array (p : ptr) : M unit := λ s,
  match ptr_block p, ptr_off p with
  | None, O => Ok tt s
  | Some b, O =>
      match heap s !! b with
      | Some _ => Ok tt (State (delete b (heap s)) (trace s ++ [Free b]))
      | None => UB
      end
  | _, _ => UB
  end.

(** Reading [*p] *)
Definition load (p : ptr) : M T := λ s,
  match ptr_block p with
  | Some b =>
      match heap s !! b with
      | Some blk =>
          match blk !! ptr_off p with
          | Some (Some x) => Ok x s
          | _ => UB
          end
      | None => UB
      end
  | None => UB
  end.

(** Writing [*p = x] *)
Definition store (p : ptr) (x : T) : M unit := λ s,
  match ptr_block p with
  | Some b =>
      match heap s !! b with
      | Some blk =>
          if decide (ptr_off p < length blk)
          then Ok tt (upd_block b (<[ptr_off p := Some x]> blk) s)
          else UB
      | None => UB
      end
  | None => UB
  end.

(** ** The standard algorithms the container calls *)

Definition std_distance (first last : ptr) : M Z :=
  lift_opt (ptr_diff last first).

(** Number of steps of a loop [while (first != last) ... ++first]. *)
Definition range_len (first last : ptr) : M nat :=
  d ← std_distance first last;
  if (d <? 0)%Z then ub else ret (Z.to_nat d).

Inductive xfer := ByCopy | ByMove.

(** [*dst = *src] or [*dst = std::move( *src )] *)
Definition assign (m : xfer) (dst src : ptr) : M unit :=
  x ← load src;
  store dst x;;
  match m with
  | ByCopy => ret tt
  | ByMove => store src (moved_from x)
  end.

(** The object a reference parameter is bound to: [Elem p], the element
    of an array of the heap that [p] points to, or [Obj x], an object
    outside the arrays (a local or a temporary) that holds [x].  The
    heap is all the memory [state] records, so what a move leaves in an
    [Obj] stays with the caller; an object whose state after the call
    matters is the element of an array of its own. *)
Inductive operand := Obj (x : T) | Elem (p : ptr).

(** [*dst = value] or [*dst = std::move(value)] for a reference [value]:
    the object is read when the assignment runs. *)
Definition assign_from (m : xfer) (dst : ptr) (value : operand) : M unit :=
  match value with
  | Obj x => store dst x
  | Elem src => assign m dst src
  end.

Fixpoint xfer_forward (m : xfer) (n : nat) (first d_first : ptr) : M ptr :=
  match n with
  | O => ret d_first
  | S k =>
      assign m d_first first;;
      xfer_forward m k (ptr_next first) (ptr_next d_first)
  end.

Fixpoint xfer_backward (m : xfer) (n : nat) (last d_last : ptr) : M ptr :=
  match n with
  | O => ret d_last
  | S k =>
      last' ← lift_opt (ptr_prev last);
      d_last' ← lift_opt (ptr_prev d_last);
      assign m d_last' last';;
      xfer_backward m k last' d_last'
  end.

Definition std_copy (first last d_first : ptr) : M ptr :=
  n ← range_len first last; xfer_forward ByCopy n first d_first.

Definition std_move (first last d_first : ptr) : M ptr :=
  n ← range_len first last; xfer_forward ByMove n first d_first.

Definition std_copy_backward (first last d_last : ptr) : M ptr :=
  n ← range_len first last; xfer_backward ByCopy n last d_last.

Definition std_move_backward (first last d_last : ptr) : M ptr :=
  n ← range_len first last; xfer_backward ByMove n last d_last.

Fixpoint generate_n (n : nat) (first : ptr) (g : unit → T) : M unit :=
  match n with
  | O => ret tt
  | S k => store first (g tt);; generate_n k (ptr_next first) g
  end.

Definition std_generate (first last : ptr) (g : unit → T) : M unit :=
  n ← range_len first last; generate_n n first g.

Definition std_fill (first last : ptr) (value : T) : M unit :=
  n ← range_len first last; generate_n n first (λ _, value).

Fixpoint equal_n (n : nat) (first1 first2 : ptr) : M bool :=
  match n with
  | O => ret true
  | S k =>
      a ← load first1;
      b ← load first2;
      if elt_eqb a b then equal_n k (ptr_next first1) (ptr_next first2)
      else ret false
  end.

Definition std_equal (first1 last1 first2 : ptr) : M bool :=
  n ← range_len first1 last1; equal_n n first1 first2.

Fixpoint lex_n (n1 n2 : nat) (first1 first2 : ptr) : M bool :=
  match n1, n2 with
  | S k1, S k2 =>
      a ← load first1;
      b ← load first2;
      if elt_ltb a b then ret true
      else if elt_ltb b a then ret false
      else lex_n k1 k2 (ptr_next first1) (ptr_next first2)
  | O, S _ => ret true
  | _, O => ret false
  end.

Definition std_lexicographical_compare (first1 last1 first2 last2 : ptr) : M bool :=
  n1 ← range_len first1 last1;
  n2 ← range_len first2 last2;
  lex_n n1 n2 first1 first2.

(** ** array_ptr.h *)

Record ArrayPtr := mkArrayPtr { raw_ptr_ : ptr }.

(** [ArrayPtr() = default] *)
Definition ArrayPtr_default : ArrayPtr := mkArrayPtr nullptr.

(** [explicit ArrayPtr(size_t size)] *)
Definition ArrayPtr_new (size : size_t) : M ArrayPtr :=
  if (size =? 0)%N then ret (mkArrayPtr nullptr)
  else p ← new_array size; ret (mkArrayPtr p).

(** [explicit ArrayPtr(Type* raw_ptr)] *)
Definition ArrayPtr_from_raw (raw_ptr : ptr) : ArrayPtr := mkArrayPtr raw_ptr.

(** [ArrayPtr(ArrayPtr&&) = default]: the implicitly-defined move
    constructor initialises each member from the corresponding member of
    the argument, and for a raw pointer that is a copy.  Returns the new
    object and the argument as it is left. *)
Definition ArrayPtr_move_ctor (other : ArrayPtr) : ArrayPtr * ArrayPtr :=
  (mkArrayPtr (raw_ptr_ other), other).

(** [ArrayPtr& operator=(ArrayPtr&&) = default]: memberwise assignment.
    Returns [*this] and the argument as it is left. *)
Definition ArrayPtr_move_assign (this other : ArrayPtr) : ArrayPtr * ArrayPtr :=
  (mkArrayPtr (raw_ptr_ other), other).

(** [~ArrayPtr()] *)
Definition ArrayPtr_dtor (this : ArrayPtr) : M unit :=
  delete_array (raw_ptr_ this).

(** [Release()]: the returned handle and [*this] afterwards. *)
Definition ArrayPtr_Release (this : ArrayPtr) : ptr * ArrayPtr :=
  let array_ptr := raw_ptr_ this in
  (array_ptr, mkArrayPtr nullptr).

(** [operator[]]: the reference [*(raw_ptr_ + index)]. *)
Definition ArrayPtr_index (this : ArrayPtr) (index : size_t) : ptr :=
  ptr_add (raw_ptr_ this) index.

(** [explicit operator bool()] *)
Definition ArrayPtr_bool (this : ArrayPtr) : bool :=
  if decide (raw_ptr_ this = nullptr) then false else true.

Definition ArrayPtr_Get (this : ArrayPtr) : ptr := raw_ptr_ this.

(** [swap(ArrayPtr& other)]: [*this] and [other] afterwards. *)
Definition ArrayPtr_swap (this other : ArrayPtr) : ArrayPtr * ArrayPtr :=
  let tmp_ptr := ArrayPtr_Get other in
  let '(released, this) := ArrayPtr_Release this in
  let other := mkArrayPtr released in
  let this := mkArrayPtr tmp_ptr in
  (this, other).

(** [std::exchange(obj, ArrayPtr{})] as the library writes it:
    [T old_value = std::move(obj); obj = std::move(new_value); return old_value;]
    An implementation may construct the local [old_value] in the returned
    object, and [elide] says whether it does.  Where it does not, the
    returned object is move-constructed from [old_value] and [old_value]
    is destroyed on return.  Gives the returned value, [obj] and the
    temporary [new_value] afterwards. *)
Definition exchange_ArrayPtr (elide : bool) (obj new_value : ArrayPtr)
  : M (ArrayPtr * ArrayPtr * ArrayPtr) :=
  let '(old_value, obj) := ArrayPtr_move_ctor obj in
  let '(obj, new_value) := ArrayPtr_move_assign obj new_value in
  if elide then ret (old_value, obj, new_value)
  else
    let '(returned, old_value) := ArrayPtr_move_ctor old_value in
    ArrayPtr_dtor old_value;;
    ret (returned, obj, new_value).

(** ** simple_vector.h *)

Record ReserveProxyObj := mkReserveProxyObj { capacity_to_reserve_ : size_t }.

Definition ReserveProxyObj_GetCapacity (this : ReserveProxyObj) : size_t :=
  capacity_to_reserve_ this.

Record SimpleVector := mkSimpleVector {
  items_ : ArrayPtr;
  size_ : size_t;
  capacity_ : size_t
}.

Definition begin_ (v : SimpleVector) : ptr := ArrayPtr_Get (items_ v).
Definition end_ (v : SimpleVector) : ptr := ptr_add (ArrayPtr_Get (items_ v)) (size_ v).

Definition GetSize (v : SimpleVector) : size_t := size_ v.
Definition GetCapacity (v : SimpleVector) : size_t := capacity_ v.
Definition IsEmpty (v : SimpleVector) : bool := (size_ v =? 0)%N.

(** [SimpleVector() noexcept = default] *)
Definition SimpleVector_default : SimpleVector :=
  mkSimpleVector ArrayPtr_default 0 0.

(** [~SimpleVector()] destroys the member [items_]. *)
Definition SimpleVector_dtor (v : SimpleVector) : M unit :=
  ArrayPtr_dtor (items_ v).

(** [swap(SimpleVector& other)]: [*this] and [other] afterwards. *)
Definition swap (this other : SimpleVector) : SimpleVector * SimpleVector :=
  let '(i1, i2) := ArrayPtr_swap (items_ this) (items_ other) in
  (mkSimpleVector i1 (size_ other) (capacity_ other),
   mkSimpleVector i2 (size_ this) (capacity_ this)).

(** [explicit SimpleVector(size_t size)] *)
Definition SimpleVector_sized (size : size_t) : M SimpleVector :=
  items ← ArrayPtr_new size;
  let v := mkSimpleVector items size size in
  std_fill (begin_ v) (end_ v) dflt;;
  ret v.

(** [SimpleVector(size_t size, const Type& value)] *)
Definition SimpleVector_filled (size : size_t) (value : T) : M SimpleVector :=
  items ← ArrayPtr_new size;
  let v := mkSimpleVector items size size in
  std_fill (begin_ v) (end_ v) value;;
  ret v.

(** Writing the elements of an initializer list, which are not objects
    of the heap, to consecutive slots. *)
Fixpoint store_list (init : list T) (d_first : ptr) : M ptr :=
  match init with
  | [] => ret d_first
  | x :: rest => store d_first x;; store_list rest (ptr_next d_first)
  end.

(** [SimpleVector(std::initializer_list<Type> init)] *)
Definition SimpleVector_init (init : list T) : M SimpleVector :=
  let n := N.of_nat (length init) in
  items ← ArrayPtr_new n;
  let v := mkSimpleVector items n n in
  store_list init (begin_ v);;
  ret v.

(** [SimpleVector(const SimpleVector& other)] *)
Definition SimpleVector_copy (other : SimpleVector) : M SimpleVector :=
  let this := SimpleVector_default in
  tmp ← SimpleVector_sized (size_ other);
  std_copy (begin_ other) (end_ other) (begin_ tmp);;
  let '(this, tmp) := swap this tmp in
  SimpleVector_dtor tmp;;
  ret this.

(** [SimpleVector(SimpleVector&& other)]: the new object and [other]
    afterwards, for an implementation that elides the copy of the result
    of [std::exchange] ([elide = true]) or does not.  The temporary
    [ArrayPtr<Type>{}] is destroyed at the end of the member
    initialiser. *)
Definition SimpleVector_move (elide : bool) (other : SimpleVector)
  : M (SimpleVector * SimpleVector) :=
  '(items, other_items, temporary) ←
    exchange_ArrayPtr elide (items_ other) ArrayPtr_default;
  ArrayPtr_dtor temporary;;
  let size := size_ other in
  let capacity := capacity_ other in
  ret (mkSimpleVector items size capacity, mkSimpleVector other_items 0 0).

(** [Reserve(size_t new_capacity)] *)
Definition Reserve (v : SimpleVector) (new_capacity : size_t) : M SimpleVector :=
  if (capacity_ v <? new_capacity)%N then
    items_copy ← ArrayPtr_new new_capacity;
    let begin_new := ArrayPtr_Get items_copy in
    std_move (begin_ v) (end_ v) begin_new;;
    let '(items, items_copy) := ArrayPtr_swap (items_ v) items_copy in
    let v := mkSimpleVector items (size_ v) new_capacity in
    ArrayPtr_dtor items_copy;;
    ret v
  else ret v.

(** [SimpleVector(ReserveProxyObj other)] *)
Definition SimpleVector_reserved (other : ReserveProxyObj) : M SimpleVector :=
  Reserve SimpleVector_default (ReserveProxyObj_GetCapacity other).

(** [Insert(ConstIterator pos, const Type& value)]: the elements are
    reached through pointers to const, so [std::move] copies them.  The
    reference [value] is read where the source assigns from it: after
    the elements from [pos] on have been shifted, or after those before
    [pos] have been transferred to the new block. *)
Definition Insert (v : SimpleVector) (pos : ptr) (value : operand)
  : M (SimpleVector * ptr) :=
  d ← std_distance (begin_ v) pos;
  let index := size_of_Z d in
  if (size_ v <? capacity_ v)%N then
    std_copy_backward pos (end_ v) (ptr_next (end_ v));;
    assign_from ByCopy (ArrayPtr_index (items_ v) index) value;;
    ret (mkSimpleVector (items_ v) (size_add (size_ v) 1) (capacity_ v), pos)
  else
    let capacity_new := N.max (size_add (size_ v) 1) (size_mul (capacity_ v) 2) in
    items_copy ← ArrayPtr_new capacity_new;
    let begin_new := ArrayPtr_Get items_copy in
    std_copy (begin_ v) pos begin_new;;
    assign_from ByCopy (ArrayPtr_index items_copy index) value;;
    let begin_new := ptr_add begin_new (size_add index 1) in
    std_copy pos (end_ v) begin_new;;
    let '(items, items_copy) := ArrayPtr_swap (items_ v) items_copy in
    let v := mkSimpleVector items (size_add (size_ v) 1) capacity_new in
    let it := ArrayPtr_index (items_ v) index in
    ArrayPtr_dtor items_copy;;
    ret (v, it).

(** [Insert(Iterator pos, Type&& value)]: the elements and then [value]
    are moved from, [value] where the source assigns from it. *)
Definition Insert_rv (v : SimpleVector) (pos : ptr) (value : operand)
  : M (SimpleVector * ptr) :=
  d ← std_distance (begin_ v) pos;
  let index := size_of_Z d in
  if (size_ v <? capacity_ v)%N then
    std_move_backward pos (end_ v) (ptr_next (end_ v));;
    assign_from ByMove (ArrayPtr_index (items_ v) index) value;;
    ret (mkSimpleVector (items_ v) (size_add (size_ v) 1) (capacity_ v), pos)
  else
    let capacity_new := N.max (size_add (size_ v) 1) (size_mul (capacity_ v) 2) in
    items_copy ← ArrayPtr_new capacity_new;
    let begin_new := ArrayPtr_Get items_copy in
    std_move (begin_ v) pos begin_new;;
    assign_from ByMove (ArrayPtr_index items_copy index) value;;
    let begin_new := ptr_add begin_new (size_add index 1) in
    std_move pos (end_ v) begin_new;;
    let '(items, items_copy) := ArrayPtr_swap (items_ v) items_copy in
    let v := mkSimpleVector items (size_add (size_ v) 1) capacity_new in
    let it := ArrayPtr_index (items_ v) index in
    ArrayPtr_dtor items_copy;;
    ret (v, it).

(** [PushBack(const Type& value)] and [PushBack(Type&& value)] *)
Definition PushBack (v : SimpleVector) (value : operand) : M SimpleVector :=
  '(v, _) ← Insert v (end_ v) value; ret v.

Definition PushBack_rv (v : SimpleVector) (value : operand) : M SimpleVector :=
  '(v, _) ← Insert_rv v (end_ v) value; ret v.

(** [PopBack()] *)
Definition PopBack (v : SimpleVector) : SimpleVector :=
  if negb (IsEmpty v)
  then mkSimpleVector (items_ v) (size_sub (size_ v) 1) (capacity_ v)
  else v.

(** [Erase(ConstIterator pos)] *)
Definition Erase (v : SimpleVector) (pos : ptr) : M (SimpleVector * ptr) :=
  if decide (pos = end_ v) then ret (v, end_ v)
  else
    std_move (ptr_next pos) (end_ v) pos;;
    ret (mkSimpleVector (items_ v) (size_sub (size_ v) 1) (capacity_ v), pos).

(** [operator[]]: the reference to slot [index]. *)
Definition subscript (v : SimpleVector) (index : size_t) : ptr :=
  ArrayPtr_index (items_ v) index.

(** [At(size_t index)]: the reference to slot [index], or the exception. *)
Definition At (v : SimpleVector) (index : size_t) : M ptr :=
  if (index <? size_ v)%N then ret (ArrayPtr_index (items_ v) index)
  else throw out_of_range.

(** [Clear()] *)
Definition Clear (v : SimpleVector) : SimpleVector :=
  mkSimpleVector (items_ v) 0 (capacity_ v).

(** [Resize(size_t new_size)] *)
Definition Resize (v : SimpleVector) (new_size : size_t) : M SimpleVector :=
  if (new_size <=? size_ v)%N then
    ret (mkSimpleVector (items_ v) new_size (capacity_ v))
  else if (size_ v <? new_size)%N && (new_size <=? capacity_ v)%N then
    std_generate (end_ v) (ArrayPtr_index (items_ v) new_size) (λ _, dflt);;
    ret (mkSimpleVector (items_ v) new_size (capacity_ v))
  else if (capacity_ v <? new_size)%N then
    new_items ← ArrayPtr_new new_size;
    std_move (begin_ v) (end_ v) (ArrayPtr_index new_items 0);;
    std_generate (ArrayPtr_index new_items (size_ v))
                 (ArrayPtr_index new_items new_size) (λ _, dflt);;
    let '(items, new_items) := ArrayPtr_swap (items_ v) new_items in
    let v := mkSimpleVector items new_size
               (N.max (size_mul (capacity_ v) 2) new_size) in
    ArrayPtr_dtor new_items;;
    ret v
  else ret v.

(** ** The relational operators *)

Definition vec_eq (lhs rhs : SimpleVector) : M bool :=
  if (GetSize lhs =? GetSize rhs)%N
  then std_equal (begin_ lhs) (end_ lhs) (begin_ rhs)
  else ret false.

Definition vec_ne (lhs rhs : SimpleVector) : M bool :=
  b ← vec_eq lhs rhs; ret (negb b).

Definition vec_lt (lhs rhs : SimpleVector) : M bool :=
  std_lexicographical_compare (begin_ lhs) (end_ lhs) (begin_ rhs) (end_ rhs).

Definition vec_le (lhs rhs : SimpleVector) : M bool :=
  b ← vec_lt rhs lhs; ret (negb b).

Definition vec_gt (lhs rhs : SimpleVector) : M bool :=
  vec_lt rhs lhs.

Definition vec_ge (lhs rhs : SimpleVector) : M bool :=
  b ← vec_lt lhs rhs; ret (negb b).

(** ** Assignment *)

(** [operator=(const SimpleVector& rhs)] *)
Definition copy_assign (this rhs : SimpleVector) : M SimpleVector :=
  differ ← vec_ne this rhs;
  if (differ : bool) then
    tmp ← SimpleVector_copy rhs;
    let '(this, tmp) := swap this tmp in
    SimpleVector_dtor tmp;;
    ret this
  else ret this.

(** [operator=(SimpleVector&& rhs)]: inside the body [rhs] is an lvalue,
    so [auto tmp(rhs)] runs the copy constructor.  Gives [*this] and
    [rhs] afterwards. *)
Definition move_assign (this rhs : SimpleVector) : M (SimpleVector * SimpleVector) :=
  differ ← vec_ne this rhs;
  if (differ : bool) then
    tmp ← SimpleVector_copy rhs;
    let '(this, tmp) := swap this tmp in
    SimpleVector_dtor tmp;;
    ret (this, rhs)
  else ret (this, rhs).

End Model.

Arguments state T : clear implicits.
Arguments result T A : clear implicits.
Arguments M T A : clear implicits.
Arguments Ok {T A} a s.
Arguments Throw {T A} e s.
Arguments UB {T A}.
Arguments operand T : clear implicits.
Arguments Obj {T} x.
Arguments Elem {T} p.

(** ** Vocabulary of the specification *)

Section Vocabulary.
Context {T : Type} `{!Element T}.

(** What a transfer leaves in the source slot. *)
Definition residue (m : xfer) (x : T) : T :=
  match m with ByCopy => x | ByMove => moved_from x end.

(** [std::copy] or [std::move], [std::copy_backward] or
    [std::move_backward], by the kind of transfer. *)
Definition std_forward (m : xfer) : ptr → ptr → ptr → M T ptr :=
  match m with ByCopy => std_copy | ByMove => std_move end.

Definition std_backward (m : xfer) : ptr → ptr → ptr → M T ptr :=
  match m with ByCopy => std_copy_backward | ByMove => std_move_backward end.

(** The two overloads of [Insert], by the kind of transfer they use. *)
Definition Insert_by (m : xfer)
  : SimpleVector → ptr → operand T → M T (SimpleVector * ptr) :=
  match m with ByCopy => Insert | ByMove => Insert_rv end.

(** The slot a one-place shift leaves behind. *)
Definition shifted_tail (m : xfer) (c : option T) (l : list T) : option T :=
  match last l with
  | Some y => Some (residue m y)
  | None => c
  end.

Definition shifted_head (m : xfer) (c : option T) (l : list T) : option T :=
  match l with
  | x :: _ => Some (residue m x)
  | [] => c
  end.

(** The heap after [new Type[n]] and after [delete[] p]. *)
Definition alloc_state (n : size_t) (s : state T) : state T :=
  let b := fresh (dom (heap s)) in
  State (<[b := replicate (N.to_nat n) None]> (heap s)) (trace s ++ [Alloc b n]).

Definition free_state (p : ptr) (s : state T) : state T :=
  match ptr_block p with
  | Some b => State (delete b (heap s)) (trace s ++ [Free b])
  | None => s
  end.

(** The heap after a reallocation: the block of [old] has been replaced
    by a fresh block holding [blk], requested with [n] slots. *)
Definition realloc_state (old : ptr) (n : size_t) (blk : list (option T))
    (s : state T) : state T :=
  let b := fresh (dom (heap s)) in
  match ptr_block old with
  | Some b0 =>
      State (<[b := blk]> (delete b0 (heap s))) (trace s ++ [Alloc b n; Free b0])
  | None => State (<[b := blk]> (heap s)) (trace s ++ [Alloc b n])
  end.

(** The heap after the block of [a] has been overwritten in place. *)
Definition write_block (a : ArrayPtr) (blk : list (option T)) (s : state T)
  : state T :=
  match ptr_block (raw_ptr_ a) with
  | Some b => upd_block b blk s
  | None => s
  end.

(** The array an [ArrayPtr] owns: no slots for the null handle. *)
Definition block_of (s : state T) (a : ArrayPtr) : option (list (option T)) :=
  match raw_ptr_ a with
  | Ptr None O => Some []
  | Ptr (Some b) O => heap s !! b
  | _ => None
  end.

(** The data-model invariant of the container: in heap [s] the vector
    [v] owns a block of [capacity_ v] slots, of which the first [size_ v]
    hold the elements [l] and the others are [junk]. *)
Definition repr (s : state T) (v : SimpleVector) (l : list T)
    (junk : list (option T)) : Prop :=
  block_of s (items_ v) = Some ((Some <$> l) ++ junk)
  ∧ size_ v = N.of_nat (length l)
  ∧ capacity_ v = N.of_nat (length l + length junk)
  ∧ (capacity_ v ≤ max_alloc)%N.

(** The object and the heap the copy constructor produces from a vector
    holding [l]: nothing is allocated for an empty source. *)
Definition copy_result (s : state T) (other : SimpleVector) (l : list T)
  : SimpleVector * state T :=
  if decide (l = []) then (SimpleVector_default, s)
  else (mkSimpleVector (mkArrayPtr (Ptr (Some (fresh (dom (heap s)))) 0))
          (size_ other) (size_ other),
        realloc_state nullptr (size_ other) (Some <$> l) s).

(** The range starting at [p] holds the values [l], all readable. *)
Definition reads (s : state T) (p : ptr) (l : list T) : Prop :=
  ∀ i x, l !! i = Some x → load (Ptr (ptr_block p) (ptr_off p + i)) s = Ok x s.

(** What [std::equal] computes on two ranges of the same length. *)
Fixpoint elements_equal (l1 l2 : list T) : bool :=
  match l1, l2 with
  | [], [] => true
  | a :: l1, b :: l2 => if elt_eqb a b then elements_equal l1 l2 else false
  | _, _ => false
  end.

(** What [std::lexicographical_compare] computes on two ranges. *)
Fixpoint lex_less (l1 l2 : list T) : bool :=
  match l1, l2 with
  | a :: l1, b :: l2 =>
      if elt_ltb a b then true
      else if elt_ltb b a then false
      else lex_less l1 l2
  | [], _ :: _ => true
  | _, [] => false
  end.

(** Lexicographic order as the specification words it: a proper prefix
    sorts first, and otherwise the first position where the elements
    differ decides. *)
Inductive lex_lt : list T → list T → Prop :=
  | lex_lt_prefix b l2 : lex_lt [] (b :: l2)
  | lex_lt_first a b l1 l2 : elt_ltb a b = true → lex_lt (a :: l1) (b :: l2)
  | lex_lt_next a b l1 l2 :
      elt_ltb a b = false → elt_ltb b a = false → lex_lt l1 l2 →
      lex_lt (a :: l1) (b :: l2).

End Vocabulary.

(** ** Arrays of [int] used as concrete inputs *)

Definition heap0 : state Z := State ∅ [].

(** A heap with five arrays: [{1,2,3}] with one spare slot, [{1,2,3}],
    [{1,2}], [{1,3}] and [{1,2,9}] without spare slots. *)
Definition demo_state : state Z :=
  State {[ 1%positive := [Some 1; Some 2; Some 3; None];
           2%positive := [Some 1; Some 2; Some 3];
           3%positive := [Some 1; Some 2];
           4%positive := [Some 1; Some 3];
           5%positive := [Some 1; Some 2; Some 9] ]}%Z
        [Alloc 1 4; Alloc 2 3; Alloc 3 2; Alloc 4 2; Alloc 5 3].

Definition vec_at (b : loc) (size capacity : size_t) : SimpleVector :=
  mkSimpleVector (mkArrayPtr (Ptr (Some b) 0)) size capacity.

Definition vec_123_spare : SimpleVector := vec_at 1 3 4.
Definition vec_123 : SimpleVector := vec_at 2 3 3.
Definition vec_12 : SimpleVector := vec_at 3 2 2.
Definition vec_13 : SimpleVector := vec_at 4 2 2.
Definition vec_129 : SimpleVector := vec_at 5 3 3.

(** An [ArrayPtr] that owns the first array of [demo_state]. *)
Definition owner : ArrayPtr := mkArrayPtr (Ptr (Some 1%positive) 0).

(** [SimpleVector<int> a{1, 2}; SimpleVector<int> b{3}; b = std::move(a);]
    giving [b] and [a] afterwards. *)
Definition move_assign_demo : M Z (SimpleVector * SimpleVector) :=
  a ← SimpleVector_init [1; 2]%Z;
  b ← SimpleVector_init [3]%Z;
  move_assign b a.

(** [SimpleVector<int> v(4);] and the heap it is built in. *)
Definition sized4_vec : SimpleVector := vec_at 1 4 4.
Definition sized4_state : state Z :=
  State {[ 1%positive := replicate 4 (Some 0%Z) ]} [Alloc 1 4].

(** The same vector after [v.Resize(5);]. *)
Definition resized_vec : SimpleVector := vec_at 2 5 8.
Definition resized_state : state Z :=
  State {[ 2%positive := replicate 5 (Some 0%Z) ]} [Alloc 1 4; Alloc 2 5; Free 1].

(** A full vector of [2^62] zeros, the smallest whose doubled capacity
    cannot be allocated. *)
Definition huge_len : nat := N.to_nat (2 ^ 62).
Definition huge_vec : SimpleVector := vec_at 1 (2 ^ 62) (2 ^ 62).
Definition huge_state : state Z :=
  State {[ 1%positive := (Some <$> replicate huge_len 0%Z) ++ [] ]}
        [Alloc 1 (2 ^ 62)].

(** ** Compositions of the operations *)

Section Compositions.
Context {T : Type} `{!Element T}.

(** [for (const auto& x : xs) v.PushBack(x);] *)
Fixpoint PushBack_all (v : SimpleVector) (xs : list T) : M T SimpleVector :=
  match xs with
  | [] => ret v
  | x :: xs => v' ← PushBack v (Obj x); PushBack_all v' xs
  end.

(** The heap apart from the block that [a] owns. *)
Definition heap_without (a : ArrayPtr) (s : state T)
  : gmap loc (list (option T)) :=
  match ptr_block (raw_ptr_ a) with
  | Some b => delete b (heap s)
  | None => heap s
  end.

(** Two vectors that do not share their block. *)
Definition separate (v w : SimpleVector) : Prop :=
  ptr_block (raw_ptr_ (items_ w)) = None
  ∨ ptr_block (raw_ptr_ (items_ w)) ≠ ptr_block (raw_ptr_ (items_ v)).

(** The number of [new Type[n]] a trace records. *)
Fixpoint allocations (t : list event) : nat :=
  match t with
  | [] => 0
  | Alloc _ _ :: t => S (allocations t)
  | Free _ :: t => allocations t
  end.

End Compositions.

#[global] Arguments size_add : simpl never.
#[global] Arguments size_mul : simpl never.
#[global] Arguments size_sub : simpl never.
#[global] Arguments size_of_Z : simpl never.

(** ** Reasoning about the monad and the heap *)

(** Side conditions on lengths and offsets. *)
Ltac len :=
  repeat first
    [ rewrite length_app | rewrite length_fmap | rewrite length_replicate
    | rewrite length_take | rewrite length_drop | rewrite Nat2N.id ];
  simpl; lia.

Section Heap.
Context {T : Type} `{!Element T}.
Implicit Types (s : state T) (b : loc) (blk : list (option T)) (l : list T).

Lemma bind_eq {A B} (m : M T A) (k : A → M T B) s :
  (m ≫= k) s =
  match m s with
  | Ok a s' => k a s'
  | Throw e s' => Throw e s'
  | UB => UB
  end.
Proof. reflexivity. Qed.

Lemma bind_Ok {A B} (m : M T A) (k : A → M T B) s a s' :
  m s = Ok a s' → (m ≫= k) s = k a s'.
Proof. intros E. by rewrite bind_eq, E. Qed.

Lemma state_eq s1 s2 :
  (∀ b, heap s1 !! b = heap s2 !! b) → trace s1 = trace s2 → s1 = s2.
Proof.
  destruct s1 as [h1 t1], s2 as [h2 t2]; simpl.
  intros Hh ->. f_equal. by apply map_eq.
Qed.

Lemma heap_upd_block b blk s : heap (upd_block b blk s) = <[b := blk]> (heap s).
Proof. reflexivity. Qed.

Lemma trace_upd_block b blk s : trace (upd_block b blk s) = trace s.
Proof. reflexivity. Qed.

Lemma lookup_upd_block b blk s : heap (upd_block b blk s) !! b = Some blk.
Proof. apply lookup_insert_eq. Qed.

Lemma lookup_upd_block_ne b b' blk s :
  b ≠ b' → heap (upd_block b blk s) !! b' = heap s !! b'.
Proof. intros. by apply lookup_insert_ne. Qed.

Lemma upd_block_id b blk s : heap s !! b = Some blk → upd_block b blk s = s.
Proof.
  intros Hb. apply state_eq; [|done].
  intros b'. rewrite heap_upd_block, lookup_insert. by case_decide; subst.
Qed.

Lemma upd_block_twice b blk blk' s :
  upd_block b blk' (upd_block b blk s) = upd_block b blk' s.
Proof.
  apply state_eq; [|done].
  intros b'. rewrite !heap_upd_block, !lookup_insert. by case_decide.
Qed.

Lemma upd_block_comm b1 b2 blk1 blk2 s :
  b1 ≠ b2 →
  upd_block b1 blk1 (upd_block b2 blk2 s) = upd_block b2 blk2 (upd_block b1 blk1 s).
Proof.
  intros Hne. apply state_eq; [|done].
  intros b'. rewrite !heap_upd_block, !lookup_insert.
  repeat case_decide; congruence.
Qed.

Lemma load_spec s b blk o x :
  heap s !! b = Some blk → blk !! o = Some (Some x) →
  load (Ptr (Some b) o) s = Ok x s.
Proof. intros Hb Ho. unfold load; simpl. by rewrite Hb, Ho. Qed.

Lemma store_spec s b blk o x :
  heap s !! b = Some blk → o < length blk →
  store (Ptr (Some b) o) x s = Ok tt (upd_block b (<[o := Some x]> blk) s).
Proof.
  intros Hb Ho. unfold store; simpl. rewrite Hb. by rewrite decide_True.
Qed.

(** Reading and writing the slot that follows a prefix [pre]. *)
Lemma load_middle s b pre x post :
  heap s !! b = Some (pre ++ Some x :: post) →
  load (Ptr (Some b) (length pre)) s = Ok x s.
Proof. intros Hb. eapply load_spec; [done|]. by rewrite list_lookup_middle. Qed.

Lemma store_middle s b pre c post x :
  heap s !! b = Some (pre ++ c :: post) →
  store (Ptr (Some b) (length pre)) x s
  = Ok tt (upd_block b (pre ++ Some x :: post) s).
Proof.
  intros Hb. erewrite store_spec; [|done|].
  - do 2 f_equal. rewrite insert_app_r_alt by lia.
    by rewrite Nat.sub_diag.
  - rewrite length_app; simpl; lia.
Qed.

Lemma assign_distinct m s b1 b2 pre1 x post1 pre2 c post2 :
  b1 ≠ b2 →
  heap s !! b1 = Some (pre1 ++ Some x :: post1) →
  heap s !! b2 = Some (pre2 ++ c :: post2) →
  assign m (Ptr (Some b2) (length pre2)) (Ptr (Some b1) (length pre1)) s
  = Ok tt (upd_block b2 (pre2 ++ Some x :: post2)
             (upd_block b1 (pre1 ++ Some (residue m x) :: post1) s)).
Proof.
  intros Hne H1 H2. unfold assign.
  rewrite (bind_Ok _ _ _ _ _ (load_middle _ _ _ _ _ H1)).
  rewrite (bind_Ok _ _ _ _ _ (store_middle _ _ _ _ _ x H2)).
  destruct m; simpl.
  - unfold mret, M_ret, ret. f_equal.
    by rewrite (upd_block_id b1) by done.
  - erewrite store_middle; [|by rewrite lookup_upd_block_ne].
    f_equal. by rewrite upd_block_comm.
Qed.

Lemma ptr_next_block b o : ptr_next (Ptr (Some b) o) = Ptr (Some b) (S o).
Proof. reflexivity. Qed.

(** A forward transfer between two different blocks. *)
Lemma xfer_forward_distinct m b1 b2 l : b1 ≠ b2 →
  ∀ s pre1 post1 pre2 mid2 post2,
  heap s !! b1 = Some (pre1 ++ (Some <$> l) ++ post1) →
  heap s !! b2 = Some (pre2 ++ mid2 ++ post2) →
  length mid2 = length l →
  xfer_forward m (length l) (Ptr (Some b1) (length pre1)) (Ptr (Some b2) (length pre2)) s
  = Ok (Ptr (Some b2) (length pre2 + length l))
       (upd_block b2 (pre2 ++ (Some <$> l) ++ post2)
          (upd_block b1 (pre1 ++ (Some <$> (residue m <$> l)) ++ post1) s)).
Proof.
  intros Hne. induction l as [|x l IH]; intros s pre1 post1 pre2 mid2 post2 H1 H2 Hlen.
  - destruct mid2; [|done]. simpl in *.
    rewrite Nat.add_0_r, (upd_block_id b1) by done.
    by rewrite (upd_block_id b2) by done.
  - destruct mid2 as [|c mid2]; [done|]. simpl in *.
    rewrite (bind_Ok _ _ _ _ _ (assign_distinct m _ _ _ _ _ _ _ _ _ Hne H1 H2)).
    rewrite !ptr_next_block.
    replace (S (length pre1)) with (length (pre1 ++ [Some (residue m x)]))
      by (rewrite length_app; simpl; lia).
    replace (S (length pre2)) with (length (pre2 ++ [Some x]))
      by (rewrite length_app; simpl; lia).
    erewrite (IH _ _ post1 _ mid2 post2).
    + rewrite length_app; simpl. f_equal; [f_equal; lia|].
      rewrite <- !(assoc_L (++)); simpl.
      rewrite upd_block_comm, upd_block_twice by done.
      by rewrite upd_block_comm, upd_block_twice by done.
    + rewrite lookup_upd_block_ne, lookup_upd_block by done.
      by rewrite <- (assoc_L (++)).
    + rewrite lookup_upd_block. by rewrite <- (assoc_L (++)).
    + lia.
Qed.

Lemma length_snoc {A} (l : list A) (x : A) : length (l ++ [x]) = S (length l).
Proof. rewrite length_app; simpl; lia. Qed.

(** An assignment from a slot to its left or right neighbour. *)
Lemma assign_left m s b pre c x post :
  heap s !! b = Some (pre ++ c :: Some x :: post) →
  assign m (Ptr (Some b) (length pre)) (Ptr (Some b) (S (length pre))) s
  = Ok tt (upd_block b (pre ++ Some x :: Some (residue m x) :: post) s).
Proof.
  intros Hb. unfold assign.
  assert (Hb' : heap s !! b = Some ((pre ++ [c]) ++ Some x :: post))
    by (by rewrite <- (assoc_L (++))).
  rewrite <- (length_snoc pre c) at 1.
  rewrite (bind_Ok _ _ _ _ _ (load_middle _ _ _ _ _ Hb')).
  rewrite (bind_Ok _ _ _ _ _ (store_middle _ _ _ _ _ x Hb)).
  destruct m; simpl.
  - unfold mret, M_ret, ret. f_equal.
  - rewrite <- (length_snoc pre (Some x)).
    erewrite store_middle;
      [|by rewrite lookup_upd_block, <- (assoc_L (++))].
    rewrite upd_block_twice. by rewrite <- (assoc_L (++)).
Qed.

Lemma assign_right m s b pre x c post :
  heap s !! b = Some (pre ++ Some x :: c :: post) →
  assign m (Ptr (Some b) (S (length pre))) (Ptr (Some b) (length pre)) s
  = Ok tt (upd_block b (pre ++ Some (residue m x) :: Some x :: post) s).
Proof.
  intros Hb. unfold assign.
  rewrite (bind_Ok _ _ _ _ _ (load_middle _ _ _ _ _ Hb)).
  assert (Hb' : heap s !! b = Some ((pre ++ [Some x]) ++ c :: post))
    by (by rewrite <- (assoc_L (++))).
  rewrite <- (length_snoc pre (Some x)).
  rewrite (bind_Ok _ _ _ _ _ (store_middle _ _ _ _ _ x Hb')).
  rewrite <- (assoc_L (++)); simpl.
  destruct m; simpl.
  - unfold mret, M_ret, ret. f_equal.
  - erewrite store_middle; [|by rewrite lookup_upd_block].
    by rewrite upd_block_twice.
Qed.

(** A forward transfer one slot to the left inside a block, as [Erase]
    runs it. *)
Lemma xfer_forward_left m b l :
  ∀ s pre c post,
  heap s !! b = Some (pre ++ c :: (Some <$> l) ++ post) →
  xfer_forward m (length l) (Ptr (Some b) (S (length pre))) (Ptr (Some b) (length pre)) s
  = Ok (Ptr (Some b) (length pre + length l))
       (upd_block b (pre ++ (Some <$> l) ++ shifted_tail m c l :: post) s).
Proof.
  induction l as [|x l IH]; intros s pre c post Hb.
  - simpl. rewrite Nat.add_0_r. by rewrite upd_block_id.
  - simpl in *.
    rewrite (bind_Ok _ _ _ _ _ (assign_left m _ _ _ _ _ _ Hb)).
    rewrite !ptr_next_block.
    rewrite <- (length_snoc pre (Some x)).
    erewrite IH; [|by rewrite lookup_upd_block, <- (assoc_L (++))].
    rewrite length_snoc, upd_block_twice, <- (assoc_L (++)); simpl.
    do 2 f_equal; [lia|].
    unfold shifted_tail. rewrite last_cons. by destruct (last l).
Qed.

(** A backward transfer one slot to the right inside a block, as
    [Insert] runs it. *)
Lemma xfer_backward_right m b l :
  ∀ s pre c post,
  heap s !! b = Some (pre ++ (Some <$> l) ++ c :: post) →
  xfer_backward m (length l)
    (Ptr (Some b) (length pre + length l)) (Ptr (Some b) (S (length pre + length l))) s
  = Ok (Ptr (Some b) (S (length pre)))
       (upd_block b (pre ++ shifted_head m c l :: (Some <$> l) ++ post) s).
Proof.
  induction l as [|x l IH] using rev_ind; intros s pre c post Hb.
  - simpl in *. rewrite Nat.add_0_r. by rewrite upd_block_id.
  - rewrite length_snoc, Nat.add_succ_r. simpl.
    rewrite fmap_app, <- (assoc_L (++)) in Hb; simpl in Hb.
    rewrite (assoc_L (++)) in Hb.
    unfold ptr_prev; simpl.
    rewrite bind_eq; simpl. rewrite bind_eq; simpl.
    assert (Hlen : length pre + length l = length (pre ++ (Some <$> l)))
      by (by rewrite length_app, length_fmap).
    rewrite Hlen.
    rewrite (bind_Ok _ _ _ _ _ (assign_right m _ _ _ _ _ _ Hb)).
    rewrite <- Hlen.
    erewrite IH; [|by rewrite lookup_upd_block, <- (assoc_L (++))].
    rewrite upd_block_twice. do 2 f_equal.
    rewrite fmap_app, <- (assoc_L (++)); simpl.
    do 2 f_equal. unfold shifted_head. by destruct l.
Qed.

Lemma generate_n_spec g b mid :
  ∀ s pre post,
  heap s !! b = Some (pre ++ mid ++ post) →
  generate_n (length mid) (Ptr (Some b) (length pre)) g s
  = Ok tt (upd_block b (pre ++ replicate (length mid) (Some (g tt)) ++ post) s).
Proof.
  induction mid as [|c mid IH]; intros s pre post Hb.
  - simpl. by rewrite upd_block_id.
  - simpl in *.
    rewrite (bind_Ok _ _ _ _ _ (store_middle _ _ _ _ _ (g tt) Hb)).
    rewrite ptr_next_block, <- (length_snoc pre (Some (g tt))).
    erewrite IH; [|by rewrite lookup_upd_block, <- (assoc_L (++))].
    by rewrite upd_block_twice, <- (assoc_L (++)).
Qed.

Lemma store_list_spec b l :
  ∀ s pre mid post,
  heap s !! b = Some (pre ++ mid ++ post) → length mid = length l →
  store_list l (Ptr (Some b) (length pre)) s
  = Ok (Ptr (Some b) (length pre + length l))
       (upd_block b (pre ++ (Some <$> l) ++ post) s).
Proof.
  induction l as [|x l IH]; intros s pre mid post Hb Hlen.
  - destruct mid; [|done]. simpl. rewrite Nat.add_0_r. by rewrite upd_block_id.
  - destruct mid as [|c mid]; [done|]. simpl in *.
    rewrite (bind_Ok _ _ _ _ _ (store_middle _ _ _ _ _ x Hb)).
    rewrite ptr_next_block, <- (length_snoc pre (Some x)).
    erewrite (IH _ _ mid); [| by rewrite lookup_upd_block, <- (assoc_L (++)) | lia].
    rewrite length_snoc, upd_block_twice, <- (assoc_L (++)); simpl.
    do 2 f_equal. lia.
Qed.

Lemma std_distance_spec s bo o1 o2 :
  std_distance (Ptr bo o1) (Ptr bo o2) s = Ok (Z.of_nat o2 - Z.of_nat o1)%Z s.
Proof. unfold std_distance, ptr_diff; simpl. by rewrite decide_True. Qed.

Lemma range_len_spec s bo o n :
  range_len (Ptr bo o) (Ptr bo (o + n)) s = Ok n s.
Proof.
  unfold range_len. rewrite (bind_Ok _ _ _ _ _ (std_distance_spec _ _ _ _)).
  destruct (Z.ltb_spec (Z.of_nat (o + n) - Z.of_nat o) 0); [lia|].
  unfold mret, M_ret, ret. f_equal. lia.
Qed.

Lemma fresh_block_None s : heap s !! fresh (dom (heap s)) = None.
Proof. apply not_elem_of_dom, is_fresh. Qed.

Lemma new_array_spec s n :
  (n ≤ max_alloc)%N →
  new_array n s = Ok (Ptr (Some (fresh (dom (heap s)))) 0) (alloc_state n s).
Proof.
  intros Hn. unfold new_array.
  by destruct (N.ltb_spec max_alloc n); [lia|].
Qed.

Lemma new_array_fail s n :
  (max_alloc < n)%N → new_array n s = Throw bad_alloc s.
Proof.
  intros Hn. unfold new_array.
  by destruct (N.ltb_spec max_alloc n); [|lia].
Qed.

Lemma size_add_small (x y : N) : (x + y < SIZE_MOD)%N → size_add x y = (x + y)%N.
Proof. apply N.mod_small. Qed.

Lemma size_mul_small (x y : N) : (x * y < SIZE_MOD)%N → size_mul x y = (x * y)%N.
Proof. apply N.mod_small. Qed.

Lemma size_sub_small (x y : N) :
  (y ≤ x)%N → (x < SIZE_MOD)%N → size_sub x y = (x - y)%N.
Proof.
  intros Hy Hx. unfold size_sub.
  replace (x + SIZE_MOD - y)%N with ((x - y) + 1 * SIZE_MOD)%N by lia.
  rewrite N.Div0.mod_add. apply N.mod_small. lia.
Qed.

Lemma size_of_Z_small (n : nat) :
  (N.of_nat n < SIZE_MOD)%N → size_of_Z (Z.of_nat n) = N.of_nat n.
Proof.
  intros Hn. unfold size_of_Z. rewrite Z.mod_small; [lia|].
  unfold SIZE_MOD in *. lia.
Qed.

Lemma max_alloc_lt : (2 * max_alloc + 1 < SIZE_MOD)%N.
Proof. reflexivity. Qed.

(** A represented vector is the default one or owns a block of the heap. *)
Lemma repr_cases s v l junk :
  repr s v l junk →
  (v = SimpleVector_default ∧ l = [] ∧ junk = [])
  ∨ (∃ b, v = mkSimpleVector (mkArrayPtr (Ptr (Some b) 0))
                (N.of_nat (length l)) (N.of_nat (length l + length junk))
          ∧ heap s !! b = Some ((Some <$> l) ++ junk)
          ∧ (N.of_nat (length l + length junk) ≤ max_alloc)%N).
Proof.
  destruct v as [[[[b|] [|o]]] sz cap]; unfold repr, block_of; simpl;
    intros (Hb & -> & -> & Hcap); try done.
  - right. by exists b.
  - left. injection Hb as Hb. symmetry in Hb.
    apply app_eq_nil in Hb as [Hl ->]. apply fmap_nil_inv in Hl as ->.
    done.
Qed.

Lemma ptr_add_of_nat bo o (n : nat) :
  ptr_add (Ptr bo o) (N.of_nat n) = Ptr bo (o + n).
Proof. unfold ptr_add; simpl. by rewrite Nat2N.id. Qed.

Lemma repr_block s b l junk sz cap :
  heap s !! b = Some ((Some <$> l) ++ junk) →
  sz = N.of_nat (length l) → cap = N.of_nat (length l + length junk) →
  (cap ≤ max_alloc)%N →
  repr s (mkSimpleVector (mkArrayPtr (Ptr (Some b) 0)) sz cap) l junk.
Proof. by intros Hb -> -> Hcap. Qed.

(** *** The algorithms on ranges of a block *)

Lemma range_len_eq s bo o o' n :
  o' = o + n → range_len (Ptr bo o) (Ptr bo o') s = Ok n s.
Proof. intros ->. apply range_len_spec. Qed.

Lemma std_forward_eq m s bo o o' n d :
  o' = o + n →
  std_forward m (Ptr bo o) (Ptr bo o') d s = xfer_forward m n (Ptr bo o) d s.
Proof.
  intros Ho. destruct m; simpl; unfold std_copy, std_move;
    by rewrite (bind_Ok _ _ _ _ _ (range_len_eq _ _ _ _ _ Ho)).
Qed.

Lemma std_backward_eq m s bo o o' n d :
  o' = o + n →
  std_backward m (Ptr bo o) (Ptr bo o') d s = xfer_backward m n (Ptr bo o') d s.
Proof.
  intros Ho. destruct m; simpl; unfold std_copy_backward, std_move_backward;
    by rewrite (bind_Ok _ _ _ _ _ (range_len_eq _ _ _ _ _ Ho)).
Qed.

Lemma std_forward_empty m s p d : std_forward m p p d s = Ok d s.
Proof.
  destruct p as [bo o]. by rewrite (std_forward_eq m s bo o o 0) by lia.
Qed.

Lemma std_backward_empty m s p d : std_backward m p p d s = Ok d s.
Proof.
  destruct p as [bo o]. by rewrite (std_backward_eq m s bo o o 0) by lia.
Qed.

Lemma std_forward_distinct m s b1 b2 l pre1 post1 pre2 mid2 post2 o1 o1' o2 :
  b1 ≠ b2 →
  heap s !! b1 = Some (pre1 ++ (Some <$> l) ++ post1) →
  heap s !! b2 = Some (pre2 ++ mid2 ++ post2) →
  length mid2 = length l →
  o1 = length pre1 → o1' = o1 + length l → o2 = length pre2 →
  std_forward m (Ptr (Some b1) o1) (Ptr (Some b1) o1') (Ptr (Some b2) o2) s
  = Ok (Ptr (Some b2) (o2 + length l))
       (upd_block b2 (pre2 ++ (Some <$> l) ++ post2)
          (upd_block b1 (pre1 ++ (Some <$> (residue m <$> l)) ++ post1) s)).
Proof.
  intros Hne H1 H2 Hlen -> Ho1 ->.
  rewrite (std_forward_eq _ _ _ _ _ _ _ Ho1).
  by apply xfer_forward_distinct with (mid2 := mid2).
Qed.

Lemma std_forward_left m s b l pre c post o o' :
  heap s !! b = Some (pre ++ c :: (Some <$> l) ++ post) →
  o = length pre → o' = S o + length l →
  std_forward m (Ptr (Some b) (S o)) (Ptr (Some b) o') (Ptr (Some b) o) s
  = Ok (Ptr (Some b) (o + length l))
       (upd_block b (pre ++ (Some <$> l) ++ shifted_tail m c l :: post) s).
Proof.
  intros Hb -> Ho'. rewrite (std_forward_eq _ _ _ _ _ _ _ Ho').
  by apply xfer_forward_left.
Qed.

Lemma std_backward_right m s b l pre c post o o' :
  heap s !! b = Some (pre ++ (Some <$> l) ++ c :: post) →
  o = length pre → o' = o + length l →
  std_backward m (Ptr (Some b) o) (Ptr (Some b) o') (Ptr (Some b) (S o')) s
  = Ok (Ptr (Some b) (S o))
       (upd_block b (pre ++ shifted_head m c l :: (Some <$> l) ++ post) s).
Proof.
  intros Hb -> Ho'. rewrite (std_backward_eq _ _ _ _ _ _ _ Ho'). subst o'.
  by apply xfer_backward_right.
Qed.

Lemma std_generate_spec g s b pre mid post o o' :
  heap s !! b = Some (pre ++ mid ++ post) →
  o = length pre → o' = o + length mid →
  std_generate (Ptr (Some b) o) (Ptr (Some b) o') g s
  = Ok tt (upd_block b (pre ++ replicate (length mid) (Some (g tt)) ++ post) s).
Proof.
  intros Hb -> Ho'. unfold std_generate.
  rewrite (bind_Ok _ _ _ _ _ (range_len_eq _ _ _ _ _ Ho')).
  by apply generate_n_spec.
Qed.

Lemma std_generate_empty g s p : std_generate p p g s = Ok tt s.
Proof.
  destruct p as [bo o]. unfold std_generate.
  by rewrite (bind_Ok _ _ _ _ _ (range_len_eq _ bo o o 0 (eq_sym (Nat.add_0_r o)))).
Qed.

Lemma std_fill_spec x s b pre mid post o o' :
  heap s !! b = Some (pre ++ mid ++ post) →
  o = length pre → o' = o + length mid →
  std_fill (Ptr (Some b) o) (Ptr (Some b) o') x s
  = Ok tt (upd_block b (pre ++ replicate (length mid) (Some x) ++ post) s).
Proof. apply (std_generate_spec (λ _, x)). Qed.

Lemma std_fill_empty x s p : std_fill p p x s = Ok tt s.
Proof. apply (std_generate_empty (λ _, x)). Qed.

(** *** Erase *)

Lemma Erase_end s v : Erase v (end_ v) s = Ok (v, end_ v) s.
Proof. unfold Erase. by rewrite decide_True. Qed.

Lemma Erase_run s b l1 x l2 junk :
  let v := mkSimpleVector (mkArrayPtr (Ptr (Some b) 0))
             (N.of_nat (length (l1 ++ x :: l2)))
             (N.of_nat (length (l1 ++ x :: l2) + length junk)) in
  let pos := ptr_add (begin_ v) (N.of_nat (length l1)) in
  heap s !! b = Some ((Some <$> l1 ++ x :: l2) ++ junk) →
  (N.of_nat (length (l1 ++ x :: l2) + length junk) ≤ max_alloc)%N →
  Erase v pos s
  = Ok (mkSimpleVector (items_ v) (N.of_nat (length (l1 ++ l2))) (capacity_ v), pos)
       (upd_block b ((Some <$> l1 ++ l2) ++ shifted_tail ByMove (Some x) l2 :: junk) s).
Proof.
  intros v pos Hb Hcap. subst v pos. unfold Erase, begin_, end_; simpl.
  rewrite !ptr_add_of_nat; simpl.
  rewrite decide_False by (intros [= E]; revert E; len).
  rewrite fmap_app, <- (assoc_L (++)) in Hb; simpl in Hb.
  erewrite bind_Ok;
    [|by eapply (std_forward_left ByMove); [exact Hb|len|len]].
  unfold mret, M_ret, ret. f_equal.
  - f_equal. f_equal.
    pose proof max_alloc_lt.
    rewrite size_sub_small; [revert Hcap; len| revert Hcap; len | revert Hcap; len].
  - by rewrite fmap_app, <- (assoc_L (++)).
Qed.

(** *** Reallocation *)

Lemma ArrayPtr_new_spec s n :
  (0 < n ≤ max_alloc)%N →
  ArrayPtr_new n s
  = Ok (mkArrayPtr (Ptr (Some (fresh (dom (heap s)))) 0)) (alloc_state n s).
Proof.
  intros [Hpos Hmax]. unfold ArrayPtr_new.
  destruct (N.eqb_spec n 0); [lia|].
  by rewrite (bind_Ok _ _ _ _ _ (new_array_spec _ _ Hmax)).
Qed.

Lemma ArrayPtr_new_fail s n :
  (max_alloc < n)%N → ArrayPtr_new n s = Throw bad_alloc s.
Proof.
  intros Hmax. unfold ArrayPtr_new.
  destruct (N.eqb_spec n 0); [subst; done|].
  by rewrite bind_eq, new_array_fail.
Qed.

Lemma lookup_alloc_state_fresh s n :
  heap (alloc_state n s) !! fresh (dom (heap s)) = Some (replicate (N.to_nat n) None).
Proof. apply lookup_insert_eq. Qed.

Lemma lookup_alloc_state_old s n b blk :
  heap s !! b = Some blk → heap (alloc_state n s) !! b = Some blk.
Proof.
  intros Hb. unfold alloc_state; simpl. rewrite lookup_insert_ne; [done|].
  intros <-. by rewrite fresh_block_None in Hb.
Qed.

Lemma fresh_ne s b blk : heap s !! b = Some blk → b ≠ fresh (dom (heap s)).
Proof. intros Hb ->. by rewrite fresh_block_None in Hb. Qed.

(** Destroying the old block once the new one has been filled. *)
Lemma delete_old_block s b0 blk0 n resid newblk :
  heap s !! b0 = Some blk0 →
  delete_array (Ptr (Some b0) 0)
    (upd_block (fresh (dom (heap s))) newblk
       (upd_block b0 resid (alloc_state n s)))
  = Ok tt (realloc_state (Ptr (Some b0) 0) n newblk s).
Proof.
  intros Hb. pose proof (fresh_ne _ _ _ Hb) as Hne.
  unfold delete_array; simpl.
  rewrite lookup_insert_ne, lookup_insert_eq by done.
  f_equal. apply state_eq; simpl.
  - intros b'. rewrite !lookup_delete, !lookup_insert, !lookup_delete.
    repeat case_decide; congruence.
  - by rewrite <- (assoc_L (++)).
Qed.

Lemma repr_realloc s old n l junk sz cap :
  sz = N.of_nat (length l) → cap = N.of_nat (length l + length junk) →
  (cap ≤ max_alloc)%N →
  repr (realloc_state old n ((Some <$> l) ++ junk) s)
       (mkSimpleVector (mkArrayPtr (Ptr (Some (fresh (dom (heap s)))) 0)) sz cap)
       l junk.
Proof.
  intros -> -> Hcap. repeat split; [|done].
  unfold block_of, realloc_state; simpl.
  destruct (ptr_block old); simpl; apply lookup_insert_eq.
Qed.

(** *** Reserve *)

Lemma Reserve_keep s v n : (n ≤ capacity_ v)%N → Reserve v n s = Ok v s.
Proof.
  intros Hn. unfold Reserve. by destruct (N.ltb_spec (capacity_ v) n); [lia|].
Qed.

Lemma Reserve_fail s v n :
  (capacity_ v < n)%N → (max_alloc < n)%N → Reserve v n s = Throw bad_alloc s.
Proof.
  intros Hn Hmax. unfold Reserve. destruct (N.ltb_spec (capacity_ v) n); [|lia].
  by rewrite bind_eq, ArrayPtr_new_fail.
Qed.

Lemma Reserve_grow s v l junk n :
  repr s v l junk → (capacity_ v < n ≤ max_alloc)%N →
  Reserve v n s
  = Ok (mkSimpleVector (mkArrayPtr (Ptr (Some (fresh (dom (heap s)))) 0)) (size_ v) n)
       (realloc_state (raw_ptr_ (items_ v)) n
          ((Some <$> l) ++ replicate (N.to_nat n - length l) None) s).
Proof.
  intros Hr [Hn Hmax].
  destruct (repr_cases _ _ _ _ Hr) as [(-> & -> & ->)|(b0 & -> & Hb & Hcap)];
    simpl in *; unfold Reserve; simpl.
  - destruct (N.ltb_spec 0 n); [|lia].
    rewrite (bind_Ok _ _ _ _ _ (ArrayPtr_new_spec _ _ (conj H Hmax))).
    simpl. unfold begin_, end_; simpl.
    erewrite bind_Ok; [|apply (std_forward_empty ByMove)].
    simpl. rewrite Nat.sub_0_r. done.
  - destruct (N.ltb_spec (N.of_nat (length l + length junk)) n); [|lia].
    assert (Hpos : (0 < n)%N) by lia.
    rewrite (bind_Ok _ _ _ _ _ (ArrayPtr_new_spec _ _ (conj Hpos Hmax))).
    simpl. unfold begin_, end_; simpl. rewrite ptr_add_of_nat; simpl.
    erewrite bind_Ok;
      [|eapply (std_forward_distinct ByMove _ b0 _ l [] junk []
                  (replicate (length l) None)
                  (replicate (N.to_nat n - length l) None));
        [ by eapply fresh_ne
        | by apply lookup_alloc_state_old
        | rewrite lookup_alloc_state_fresh; simpl;
          rewrite <- replicate_add; do 2 f_equal; lia
        | len | done | done | done ] ].
    simpl.
    by rewrite (bind_Ok _ _ _ _ _ (delete_old_block _ _ _ _ _ _ Hb)).
Qed.

(** *** Resize *)

Lemma upd_alloc_state s n blk :
  upd_block (fresh (dom (heap s))) blk (alloc_state n s)
  = realloc_state nullptr n blk s.
Proof.
  apply state_eq; [|done]. intros b'. simpl.
  rewrite !lookup_insert. by case_decide.
Qed.

Lemma repr_write_block s b l junk sz cap :
  sz = N.of_nat (length l) → cap = N.of_nat (length l + length junk) →
  (cap ≤ max_alloc)%N →
  repr (write_block (mkArrayPtr (Ptr (Some b) 0)) ((Some <$> l) ++ junk) s)
       (mkSimpleVector (mkArrayPtr (Ptr (Some b) 0)) sz cap) l junk.
Proof.
  intros -> -> Hcap. repeat split; [|done].
  unfold block_of, write_block; simpl. apply lookup_insert_eq.
Qed.

Lemma Resize_shrink s v n :
  (n ≤ size_ v)%N →
  Resize v n s = Ok (mkSimpleVector (items_ v) n (capacity_ v)) s.
Proof.
  intros Hn. unfold Resize. by destruct (N.leb_spec n (size_ v)); [|lia].
Qed.

Lemma Resize_fill s v l junk n :
  repr s v l junk → (size_ v < n ≤ capacity_ v)%N →
  Resize v n s
  = Ok (mkSimpleVector (items_ v) n (capacity_ v))
       (write_block (items_ v)
          ((Some <$> l ++ replicate (N.to_nat n - length l) dflt)
           ++ drop (N.to_nat n - length l) junk) s).
Proof.
  intros Hr [Hlo Hhi].
  destruct (repr_cases _ _ _ _ Hr) as [(-> & -> & ->)|(b0 & -> & Hb & Hcap)];
    simpl in *; [lia|].
  unfold Resize; simpl.
  destruct (N.leb_spec n (N.of_nat (length l))); [lia|].
  destruct (N.ltb_spec (N.of_nat (length l)) n); [|lia].
  destruct (N.leb_spec n (N.of_nat (length l + length junk))); [|lia].
  simpl. unfold end_, ArrayPtr_index; simpl. rewrite ptr_add_of_nat; simpl.
  rewrite <- (take_drop (N.to_nat n - length l) junk) in Hb.
  erewrite bind_Ok;
    [|eapply (std_generate_spec _ _ _ (Some <$> l)); [exact Hb| len |len] ].
  simpl. unfold write_block; simpl. do 2 f_equal.
  rewrite length_take, fmap_app, fmap_replicate, <- (assoc_L (++)).
  do 3 f_equal. lia.
Qed.

Lemma Resize_fail s v n :
  (capacity_ v < n)%N → (size_ v ≤ capacity_ v)%N → (max_alloc < n)%N →
  Resize v n s = Throw bad_alloc s.
Proof.
  intros Hn Hsz Hmax. unfold Resize.
  destruct (N.leb_spec n (size_ v)); [lia|].
  destruct (N.ltb_spec (size_ v) n); [|lia].
  destruct (N.leb_spec n (capacity_ v)); [lia|]. simpl.
  destruct (N.ltb_spec (capacity_ v) n); [|lia].
  by rewrite bind_eq, ArrayPtr_new_fail.
Qed.

Lemma Resize_grow s v l junk n :
  repr s v l junk → (capacity_ v < n ≤ max_alloc)%N →
  Resize v n s
  = Ok (mkSimpleVector (mkArrayPtr (Ptr (Some (fresh (dom (heap s)))) 0)) n
          (N.max (capacity_ v * 2) n))
       (realloc_state (raw_ptr_ (items_ v)) n
          (Some <$> l ++ replicate (N.to_nat n - length l) dflt) s).
Proof.
  intros Hr [Hn Hmax]. pose proof max_alloc_lt as HM.
  assert (Hpos : (0 < n)%N) by lia.
  assert (Hmul : size_mul (capacity_ v) 2 = (capacity_ v * 2)%N).
  { apply size_mul_small. destruct Hr as (_ & _ & _ & Hc). lia. }
  destruct (repr_cases _ _ _ _ Hr) as [(-> & -> & ->)|(b0 & -> & Hb & Hcap)];
    simpl in *; unfold Resize; simpl.
  - destruct (N.leb_spec n 0); [lia|].
    destruct (N.ltb_spec 0 n); [|lia]. simpl.
    rewrite (bind_Ok _ _ _ _ _ (ArrayPtr_new_spec _ _ (conj Hpos Hmax))).
    simpl. unfold begin_, end_, ArrayPtr_index; simpl.
    erewrite bind_Ok; [|apply (std_forward_empty ByMove)].
    erewrite bind_Ok;
      [|eapply (std_generate_spec _ _ _ [] (replicate (N.to_nat n) None) []);
        [ rewrite lookup_alloc_state_fresh; simpl; by rewrite app_nil_r
        | done | len ] ].
    simpl. rewrite upd_alloc_state, length_replicate, app_nil_r, Nat.sub_0_r.
    by rewrite fmap_replicate.
  - destruct (N.leb_spec n (N.of_nat (length l))); [lia|].
    destruct (N.ltb_spec (N.of_nat (length l)) n); [|lia].
    destruct (N.leb_spec n (N.of_nat (length l + length junk))); [lia|]. simpl.
    destruct (N.ltb_spec (N.of_nat (length l + length junk)) n); [|lia].
    rewrite (bind_Ok _ _ _ _ _ (ArrayPtr_new_spec _ _ (conj Hpos Hmax))).
    simpl. unfold begin_, end_, ArrayPtr_index; simpl.
    rewrite !ptr_add_of_nat; simpl.
    erewrite bind_Ok;
      [|eapply (std_forward_distinct ByMove _ b0 _ l [] junk []
                  (replicate (length l) None)
                  (replicate (N.to_nat n - length l) None));
        [ by eapply fresh_ne
        | by apply lookup_alloc_state_old
        | rewrite lookup_alloc_state_fresh; simpl;
          rewrite <- replicate_add; do 2 f_equal; lia
        | len | done | done | done ] ].
    erewrite bind_Ok;
      [|eapply (std_generate_spec _ _ _ (Some <$> l)
                  (replicate (N.to_nat n - length l) None) []);
        [ rewrite lookup_upd_block; simpl; by rewrite app_nil_r
        | len | len ] ].
    simpl. rewrite upd_block_twice.
    rewrite (bind_Ok _ _ _ _ _ (delete_old_block _ _ _ _ _ _ Hb)).
    simpl. rewrite Hmul.
    by rewrite length_replicate, app_nil_r, fmap_app, fmap_replicate.
Qed.

(** *** Insert *)

Lemma store_at s b pre c post o x :
  heap s !! b = Some (pre ++ c :: post) → o = length pre →
  store (Ptr (Some b) o) x s = Ok tt (upd_block b (pre ++ Some x :: post) s).
Proof. intros Hb ->. by eapply store_middle. Qed.

Lemma upd_block_nest b b0 X Y X' Y' s :
  b ≠ b0 →
  upd_block b X (upd_block b0 Y (upd_block b X' (upd_block b0 Y' s)))
  = upd_block b X (upd_block b0 Y s).
Proof.
  intros Hne. apply state_eq; [|done]. intros b'.
  rewrite !heap_upd_block, !lookup_insert. repeat case_decide; congruence.
Qed.

Lemma std_distance_index s bo (n : nat) :
  (N.of_nat n ≤ max_alloc)%N →
  std_distance (Ptr bo 0) (Ptr bo (0 + n)) s = Ok (Z.of_nat n) s
  ∧ size_of_Z (Z.of_nat n) = N.of_nat n.
Proof.
  intros Hn. pose proof max_alloc_lt. split.
  - rewrite std_distance_spec. f_equal. lia.
  - apply size_of_Z_small. lia.
Qed.

Lemma Insert_room m s v l1 l2 junk x :
  repr s v (l1 ++ l2) junk → (size_ v < capacity_ v)%N →
  let pos := ptr_add (begin_ v) (N.of_nat (length l1)) in
  Insert_by m v pos (Obj x) s
  = Ok (mkSimpleVector (items_ v) (size_ v + 1) (capacity_ v), pos)
       (write_block (items_ v) ((Some <$> l1 ++ x :: l2) ++ tail junk) s).
Proof.
  intros Hr Hlt pos. subst pos. pose proof max_alloc_lt as HM.
  destruct (repr_cases _ _ _ _ Hr) as [(-> & _ & ->)|(b0 & -> & Hb & Hcap)];
    simpl in *; [lia|].
  destruct junk as [|c junk]; simpl in *; [lia|].
  rewrite fmap_app, <- (assoc_L (++)) in Hb.
  unfold begin_; simpl. rewrite ptr_add_of_nat.
  destruct (std_distance_index s (Some b0) (length l1)) as [Hd Hi];
    [revert Hcap; len|].
  assert (Hsz : size_add (N.of_nat (length (l1 ++ l2))) 1
                = (N.of_nat (length (l1 ++ l2)) + 1)%N)
    by (apply size_add_small; lia).
  destruct m; simpl; unfold Insert, Insert_rv, begin_, end_, ArrayPtr_index; simpl;
    rewrite (bind_Ok _ _ _ _ _ Hd), Hi; simpl;
    (destruct (N.ltb_spec (N.of_nat (length (l1 ++ l2)))
               (N.of_nat (length (l1 ++ l2) + S (length junk)))); [|lia]);
    rewrite !ptr_add_of_nat, ptr_next_block, Hsz.
  all: erewrite bind_Ok;
      [|first [eapply (std_backward_right ByCopy) | eapply (std_backward_right ByMove)];
        [exact Hb|len|len] ].
  all: erewrite bind_Ok;
      [|eapply store_at; [apply lookup_upd_block|len] ].
  all: simpl; unfold write_block; simpl; rewrite upd_block_twice.
  all: by rewrite fmap_app, <- (assoc_L (++)).
Qed.

Lemma std_distance_self s p : std_distance p p s = Ok 0%Z s.
Proof. destruct p as [bo o]. rewrite std_distance_spec. f_equal. lia. Qed.

Lemma Insert_full m s v l1 l2 junk x :
  repr s v (l1 ++ l2) junk → (capacity_ v ≤ size_ v)%N →
  let capacity_new := N.max (size_ v + 1) (capacity_ v * 2) in
  (capacity_new ≤ max_alloc)%N →
  let pos := ptr_add (begin_ v) (N.of_nat (length l1)) in
  let b := fresh (dom (heap s)) in
  Insert_by m v pos (Obj x) s
  = Ok (mkSimpleVector (mkArrayPtr (Ptr (Some b) 0)) (size_ v + 1) capacity_new,
        Ptr (Some b) (length l1))
       (realloc_state (raw_ptr_ (items_ v)) capacity_new
          ((Some <$> l1 ++ x :: l2)
           ++ replicate (N.to_nat capacity_new - S (length (l1 ++ l2))) None) s).
Proof.
  intros Hr Hge cn Hmax pos b. subst pos b. pose proof max_alloc_lt as HM.
  assert (Hsz : size_add (size_ v) 1 = (size_ v + 1)%N).
  { apply size_add_small. destruct Hr as (_ & _ & _ & Hc). lia. }
  assert (Hmul : size_mul (capacity_ v) 2 = (capacity_ v * 2)%N).
  { apply size_mul_small. destruct Hr as (_ & _ & _ & Hc). lia. }
  assert (Hpos : (0 < cn)%N) by (subst cn; lia).
  destruct (repr_cases _ _ _ _ Hr) as [(-> & Hl & ->)|(b0 & -> & Hb & Hcap)];
    simpl in *.
  - apply app_eq_nil in Hl as [-> ->]. simpl in *.
    destruct m; simpl; unfold Insert, Insert_rv, begin_, end_, ArrayPtr_index; simpl;
      change (ptr_add nullptr (N.of_nat 0)) with nullptr;
      change (ptr_add nullptr 0) with nullptr;
      rewrite (bind_Ok _ _ _ _ _ (std_distance_self _ _));
      change (size_of_Z 0) with 0%N;
      rewrite Hsz, Hmul; fold cn;
      rewrite (bind_Ok _ _ _ _ _ (ArrayPtr_new_spec _ _ (conj Hpos Hmax))); simpl.
    all: erewrite bind_Ok;
      [|first [apply (std_forward_empty ByCopy) | apply (std_forward_empty ByMove)] ].
    all: assert (Hfresh : heap (alloc_state cn s) !! fresh (dom (heap s))
                          = Some ([] ++ None :: replicate (N.to_nat cn - 1) None))
      by (rewrite lookup_alloc_state_fresh; simpl;
          replace (N.to_nat cn) with (S (N.to_nat cn - 1)) at 1 by lia; done).
    all: erewrite bind_Ok; [|eapply store_at; [exact Hfresh|done] ].
    all: erewrite bind_Ok;
      [|first [apply (std_forward_empty ByCopy) | apply (std_forward_empty ByMove)] ].
    all: simpl; by rewrite upd_alloc_state.
  - destruct junk as [|c junk]; simpl in *; [|lia].
    rewrite app_nil_r, fmap_app in Hb.
    unfold begin_; simpl. rewrite ptr_add_of_nat.
    destruct (std_distance_index s (Some b0) (length l1)) as [Hd Hi];
      [revert Hcap; len|].
    assert (Hi1 : size_add (N.of_nat (length l1)) 1 = N.of_nat (S (length l1))).
    { rewrite size_add_small; [lia|]. revert Hcap; len. }
    assert (Hcn : N.to_nat cn
                  = length l1 + S (length l2 + (N.to_nat cn - S (length (l1 ++ l2)))))
      by (revert Hmax Hcap; subst cn; len).
    assert (Hinit : replicate (N.to_nat cn) (@None T)
                    = replicate (length l1) None
                      ++ None :: replicate (length l2
                                   + (N.to_nat cn - S (length (l1 ++ l2)))) None)
      by (rewrite Hcn at 1; by rewrite replicate_add).
    pose proof (fresh_ne _ _ _ Hb) as Hne.
    destruct m; simpl; unfold Insert, Insert_rv, begin_, end_, ArrayPtr_index; simpl;
      rewrite (bind_Ok _ _ _ _ _ Hd), Hi; simpl;
      (destruct (N.ltb_spec (N.of_nat (length (l1 ++ l2)))
                 (N.of_nat (length (l1 ++ l2) + 0))); [lia|]);
      rewrite Hsz, Hmul, Hi1; fold cn;
      rewrite (bind_Ok _ _ _ _ _ (ArrayPtr_new_spec _ _ (conj Hpos Hmax))); simpl;
      rewrite !ptr_add_of_nat; simpl.
    all: erewrite bind_Ok;
      [|first [eapply (std_forward_distinct ByCopy _ b0 _ l1 [] (Some <$> l2) []
                  (replicate (length l1) None)
                  (None :: replicate (length l2 + (N.to_nat cn - S (length (l1 ++ l2)))) None))
              |eapply (std_forward_distinct ByMove _ b0 _ l1 [] (Some <$> l2) []
                  (replicate (length l1) None)
                  (None :: replicate (length l2 + (N.to_nat cn - S (length (l1 ++ l2)))) None))];
        [ done
        | by apply lookup_alloc_state_old
        | by rewrite lookup_alloc_state_fresh, Hinit
        | len | done | done | done ] ].
    all: erewrite bind_Ok;
      [|eapply store_at; [apply lookup_upd_block|len] ].
    all: rewrite upd_block_twice.
    all: erewrite bind_Ok;
      [|first [eapply (std_forward_distinct ByCopy _ b0 _ l2
                  (Some <$> (residue ByCopy <$> l1)) [] ((Some <$> l1) ++ [Some x])
                  (replicate (length l2) None)
                  (replicate (N.to_nat cn - S (length (l1 ++ l2))) None))
              |eapply (std_forward_distinct ByMove _ b0 _ l2
                  (Some <$> (residue ByMove <$> l1)) [] ((Some <$> l1) ++ [Some x])
                  (replicate (length l2) None)
                  (replicate (N.to_nat cn - S (length (l1 ++ l2))) None))];
        [ done
        | rewrite lookup_upd_block_ne, lookup_upd_block by done; simpl;
          by rewrite app_nil_r
        | rewrite lookup_upd_block; simpl; rewrite <- (assoc_L (++)); simpl;
          by rewrite replicate_add
        | len | len | len | len ] ].
    all: rewrite upd_block_nest by done.
    all: rewrite (bind_Ok _ _ _ _ _ (delete_old_block _ _ _ _ _ _ Hb)).
    all: simpl; do 2 f_equal.
    all: rewrite fmap_app, <- !(assoc_L (++)); simpl; done.
Qed.

(** *** The relational operators *)

Lemma reads_cons s p x l :
  reads s p (x :: l) → load p s = Ok x s ∧ reads s (ptr_next p) l.
Proof.
  intros Hr. destruct p as [bo o]. split.
  - specialize (Hr 0 x eq_refl). simpl in Hr. by rewrite Nat.add_0_r in Hr.
  - intros i y Hi. specialize (Hr (S i) y Hi). simpl in *.
    by rewrite Nat.add_succ_r in Hr.
Qed.

Lemma repr_reads s v l junk : repr s v l junk → reads s (begin_ v) l.
Proof.
  intros Hr i x Hi.
  destruct (repr_cases _ _ _ _ Hr) as [(-> & -> & ->)|(b0 & -> & Hb & Hcap)];
    [done|].
  simpl. eapply load_spec; [done|].
  rewrite lookup_app_l by (apply lookup_lt_Some in Hi; len).
  by rewrite list_lookup_fmap, Hi.
Qed.

Lemma repr_range s v l junk :
  repr s v l junk → range_len (begin_ v) (end_ v) s = Ok (length l) s.
Proof.
  intros (_ & Hsz & _). unfold end_, begin_. destruct (ArrayPtr_Get (items_ v)).
  rewrite Hsz, ptr_add_of_nat. apply range_len_spec.
Qed.

Lemma equal_n_reads s l1 :
  ∀ l2 p1 p2, reads s p1 l1 → reads s p2 l2 → length l1 = length l2 →
  equal_n (length l1) p1 p2 s = Ok (elements_equal l1 l2) s.
Proof.
  induction l1 as [|a l1 IH]; intros [|c l2] p1 p2 H1 H2 Hlen; try done.
  apply reads_cons in H1 as [Ha H1]. apply reads_cons in H2 as [Hc H2].
  simpl in *.
  rewrite (bind_Ok _ _ _ _ _ Ha), (bind_Ok _ _ _ _ _ Hc).
  destruct (elt_eqb a c); [|done]. apply IH; [done|done|lia].
Qed.

Lemma lex_n_reads s l1 :
  ∀ l2 p1 p2, reads s p1 l1 → reads s p2 l2 →
  lex_n (length l1) (length l2) p1 p2 s = Ok (lex_less l1 l2) s.
Proof.
  induction l1 as [|a l1 IH]; intros [|c l2] p1 p2 H1 H2; try done.
  apply reads_cons in H1 as [Ha H1]. apply reads_cons in H2 as [Hc H2].
  simpl in *.
  rewrite (bind_Ok _ _ _ _ _ Ha), (bind_Ok _ _ _ _ _ Hc).
  destruct (elt_ltb a c); [done|]. destruct (elt_ltb c a); [done|].
  by apply IH.
Qed.

Lemma elements_equal_length l1 :
  ∀ l2, elements_equal l1 l2 = true → length l1 = length l2.
Proof.
  induction l1 as [|a l1 IH]; intros [|c l2]; simpl; try done.
  destruct (elt_eqb a c); [|done]. intros. f_equal. by apply IH.
Qed.

Lemma elements_equal_Forall2 l1 :
  ∀ l2, elements_equal l1 l2 = true ↔ Forall2 (λ a c, elt_eqb a c = true) l1 l2.
Proof.
  induction l1 as [|a l1 IH]; intros [|c l2]; simpl.
  - split; [constructor|done].
  - split; [done|inversion 1].
  - split; [done|inversion 1].
  - destruct (elt_eqb a c) eqn:E.
    + rewrite IH. split; [by constructor|]. by inversion 1.
    + split; [done|]. inversion 1; congruence.
Qed.

Lemma lex_less_lex_lt l1 : ∀ l2, lex_less l1 l2 = true ↔ lex_lt l1 l2.
Proof.
  induction l1 as [|a l1 IH]; intros [|c l2]; simpl.
  - split; [done|inversion 1].
  - split; [constructor|done].
  - split; [done|inversion 1].
  - destruct (elt_ltb a c) eqn:E1.
    + split; [by constructor|done].
    + destruct (elt_ltb c a) eqn:E2.
      * split; [done|]. inversion 1; congruence.
      * rewrite IH. split; [by constructor|]. inversion 1; [congruence|done].
Qed.

Lemma vec_eq_spec s lhs rhs l1 j1 l2 j2 :
  repr s lhs l1 j1 → repr s rhs l2 j2 →
  vec_eq lhs rhs s = Ok (elements_equal l1 l2) s.
Proof.
  intros H1 H2. unfold vec_eq, GetSize.
  destruct H1 as (Hb1 & Hs1 & Hr1). destruct H2 as (Hb2 & Hs2 & Hr2).
  rewrite Hs1, Hs2.
  destruct (N.eqb_spec (N.of_nat (length l1)) (N.of_nat (length l2))) as [E|E].
  - unfold std_equal.
    rewrite (bind_Ok _ _ _ _ _ (repr_range _ _ _ _ (conj Hb1 (conj Hs1 Hr1)))).
    apply equal_n_reads; [by eapply repr_reads|by eapply repr_reads|lia].
  - destruct (elements_equal l1 l2) eqn:Eq; [|done].
    apply elements_equal_length in Eq. lia.
Qed.

Lemma vec_lt_spec s lhs rhs l1 j1 l2 j2 :
  repr s lhs l1 j1 → repr s rhs l2 j2 →
  vec_lt lhs rhs s = Ok (lex_less l1 l2) s.
Proof.
  intros H1 H2. unfold vec_lt, std_lexicographical_compare.
  rewrite (bind_Ok _ _ _ _ _ (repr_range _ _ _ _ H1)).
  rewrite (bind_Ok _ _ _ _ _ (repr_range _ _ _ _ H2)).
  apply lex_n_reads; by eapply repr_reads.
Qed.

Lemma vec_ne_spec s lhs rhs l1 j1 l2 j2 :
  repr s lhs l1 j1 → repr s rhs l2 j2 →
  vec_ne lhs rhs s = Ok (negb (elements_equal l1 l2)) s.
Proof.
  intros H1 H2. unfold vec_ne.
  by rewrite (bind_Ok _ _ _ _ _ (vec_eq_spec _ _ _ _ _ _ _ H1 H2)).
Qed.

(** *** Construction, copy and assignment *)

Lemma std_forward_range m s first last d n :
  range_len first last s = Ok n s →
  std_forward m first last d s = xfer_forward m n first d s.
Proof.
  intros Hn. destruct m; simpl; unfold std_copy, std_move;
    by rewrite (bind_Ok _ _ _ _ _ Hn).
Qed.

Lemma residue_copy l : residue ByCopy <$> l = l.
Proof. induction l; simpl; by f_equal. Qed.

Lemma SimpleVector_sized_zero s :
  SimpleVector_sized 0 s = Ok SimpleVector_default s.
Proof.
  unfold SimpleVector_sized, ArrayPtr_new; simpl.
  rewrite bind_eq; simpl.
  change (end_ _) with nullptr. change (begin_ _) with nullptr.
  by rewrite (bind_Ok _ _ _ _ _ (std_fill_empty _ _ _)).
Qed.

Lemma SimpleVector_sized_spec s n :
  (0 < n ≤ max_alloc)%N →
  SimpleVector_sized n s
  = Ok (mkSimpleVector (mkArrayPtr (Ptr (Some (fresh (dom (heap s)))) 0)) n n)
       (realloc_state nullptr n (replicate (N.to_nat n) (Some dflt)) s).
Proof.
  intros Hn. unfold SimpleVector_sized.
  rewrite (bind_Ok _ _ _ _ _ (ArrayPtr_new_spec _ _ Hn)).
  unfold begin_, end_; simpl.
  erewrite bind_Ok;
    [|eapply (std_fill_spec _ _ _ [] (replicate (N.to_nat n) None) []);
      [ rewrite lookup_alloc_state_fresh; simpl; by rewrite app_nil_r
      | done | len ] ].
  simpl. by rewrite upd_alloc_state, length_replicate, app_nil_r.
Qed.

Lemma delete_array_spec s a blk :
  block_of s a = Some blk →
  delete_array (raw_ptr_ a) s = Ok tt (free_state (raw_ptr_ a) s).
Proof.
  destruct a as [[[b|] [|o]]]; unfold block_of, delete_array, free_state; simpl;
    try done.
  by intros ->.
Qed.

(** The copy constructor: a block of exactly [size_ other] slots. *)
Lemma SimpleVector_copy_spec s other l junk :
  repr s other l junk →
  SimpleVector_copy other s
  = if decide (l = []) then Ok SimpleVector_default s
    else Ok (mkSimpleVector (mkArrayPtr (Ptr (Some (fresh (dom (heap s)))) 0))
               (size_ other) (size_ other))
            (realloc_state nullptr (size_ other) (Some <$> l) s).
Proof.
  intros Hr. pose proof (repr_range _ _ _ _ Hr) as Hrange.
  unfold SimpleVector_copy.
  destruct Hr as (Hb & Hs & Hc & Hmax). rewrite Hs.
  destruct l as [|x l]; simpl.
  - rewrite (bind_Ok _ _ _ _ _ (SimpleVector_sized_zero _)).
    erewrite bind_Ok;
      [|exact (std_forward_range ByCopy _ _ _ _ _ Hrange)].
    simpl. by rewrite bind_eq.
  - assert (Hn : (0 < N.of_nat (S (length l)) ≤ max_alloc)%N)
      by (simpl in *; lia).
    rewrite (bind_Ok _ _ _ _ _ (SimpleVector_sized_spec _ _ Hn)).
    destruct other as [[[[b0|] [|o]]] sz cap]; unfold block_of in Hb;
      simpl in *; try done.
    unfold begin_, end_; simpl. rewrite Hs, ptr_add_of_nat.
    pose proof (fresh_ne _ _ _ Hb) as Hne.
    erewrite bind_Ok;
      [|eapply (std_forward_distinct ByCopy _ b0 _ (x :: l) [] junk []
                  (replicate (S (length l)) (Some dflt)) []);
        [ done
        | unfold realloc_state; simpl; by rewrite lookup_insert_ne
        | unfold realloc_state; simpl; rewrite lookup_insert_eq;
          by rewrite Nat2N.id, app_nil_r
        | len | done | done | done ] ].
    simpl. rewrite bind_eq; simpl. do 2 f_equal.
    rewrite residue_copy, app_nil_r.
    rewrite (upd_block_id b0)
      by (unfold realloc_state; simpl; by rewrite lookup_insert_ne).
    apply state_eq; [|done]. intros b'. simpl.
    rewrite !lookup_insert. by case_decide.
Qed.

Lemma SimpleVector_copy_result s other l junk :
  repr s other l junk →
  SimpleVector_copy other s
  = Ok (copy_result s other l).1 (copy_result s other l).2.
Proof.
  intros Hr. rewrite (SimpleVector_copy_spec _ _ _ _ Hr).
  unfold copy_result. by case_decide.
Qed.

Lemma copy_result_block s other l a blk :
  block_of s a = Some blk → block_of (copy_result s other l).2 a = Some blk.
Proof.
  unfold copy_result. case_decide; [done|]. simpl.
  destruct a as [[[b|] [|o]]]; unfold block_of; simpl; try done.
  intros Hb. rewrite lookup_insert_ne; [done|]. by eapply not_eq_sym, fresh_ne.
Qed.

Lemma copy_result_repr s this blk other l junk :
  block_of s (items_ this) = Some blk →
  repr s other l junk →
  repr (free_state (raw_ptr_ (items_ this)) (copy_result s other l).2)
       (copy_result s other l).1 l [].
Proof.
  intros Hthis (Hb & Hs & Hc & Hmax). unfold copy_result. case_decide as Hl.
  - subst l. by repeat split.
  - simpl. repeat split; simpl; [|done|rewrite Hs; f_equal; lia|lia].
    rewrite app_nil_r. unfold block_of, free_state; simpl.
    destruct (items_ this) as [[[b1|] [|o]]]; unfold block_of in Hthis;
      simpl in *; try done; [|apply lookup_insert_eq].
    rewrite lookup_delete_ne by (by eapply fresh_ne).
    apply lookup_insert_eq.
Qed.

Lemma assign_equal s this rhs l1 j1 l2 j2 :
  repr s this l1 j1 → repr s rhs l2 j2 → elements_equal l1 l2 = true →
  copy_assign this rhs s = Ok this s
  ∧ move_assign this rhs s = Ok (this, rhs) s.
Proof.
  intros H1 H2 Heq. unfold copy_assign, move_assign.
  rewrite !(bind_Ok _ _ _ _ _ (vec_ne_spec _ _ _ _ _ _ _ H1 H2)), Heq.
  done.
Qed.

Lemma assign_differ s this rhs l1 j1 l2 j2 :
  repr s this l1 j1 → repr s rhs l2 j2 → elements_equal l1 l2 = false →
  let this' := (copy_result s rhs l2).1 in
  let s' := free_state (raw_ptr_ (items_ this)) (copy_result s rhs l2).2 in
  copy_assign this rhs s = Ok this' s'
  ∧ move_assign this rhs s = Ok (this', rhs) s'.
Proof.
  intros H1 H2 Hne. unfold copy_assign, move_assign.
  rewrite !(bind_Ok _ _ _ _ _ (vec_ne_spec _ _ _ _ _ _ _ H1 H2)), Hne.
  simpl.
  rewrite !(bind_Ok _ _ _ _ _ (SimpleVector_copy_result _ _ _ _ H2)).
  destruct H1 as (Hb1 & _).
  pose proof (copy_result_block s rhs l2 _ _ Hb1) as Hb.
  destruct (copy_result s rhs l2) as [[[tp] tsz tcap] s1]; simpl in *.
  unfold SimpleVector_dtor, ArrayPtr_dtor; simpl.
  destruct this as [[p] sz cap]; simpl in *.
  by rewrite !(bind_Ok _ _ _ _ _ (delete_array_spec _ _ _ Hb)).
Qed.

(** *** At *)

Lemma At_inside s v index :
  (index < size_ v)%N → At v index s = Ok (subscript v index) s.
Proof.
  intros Hi. unfold At. by destruct (N.ltb_spec index (size_ v)); [|lia].
Qed.

Lemma At_outside s v index :
  (size_ v ≤ index)%N → At v index s = Throw out_of_range s.
Proof.
  intros Hi. unfold At. by destruct (N.ltb_spec index (size_ v)); [lia|].
Qed.

Lemma subscript_load s v l junk index x :
  repr s v l junk → l !! N.to_nat index = Some x →
  load (subscript v index) s = Ok x s.
Proof.
  intros Hr Hx. pose proof (repr_reads _ _ _ _ Hr _ _ Hx) as Hl.
  unfold subscript, ArrayPtr_index, ptr_add. by destruct v as [[[bo o]] sz cap].
Qed.

End Heap.

(** ** The container's contract *)

Section Contract.
Context {T : Type} `{!Element T}.
Implicit Types (s : state T) (v : SimpleVector) (l : list T)
  (junk : list (option T)).

(** C4: [Resize(n)] on a vector that satisfies the data-model invariant.
    With [n <= size] only [size_] changes: the handle, the capacity and
    the heap stay as they are and the elements are the first [n] old ones.
    With [size < n <= capacity] the slots [size, n) are set to [Type{}]
    in place, [size_] becomes [n], and the capacity, the handle and the
    allocation trace are unchanged.  With [n > capacity] (and an
    allocation that succeeds) a fresh block of exactly [n] slots is
    allocated, it receives the old elements in order followed by
    [Type{}] in the slots [old size, n), the old block is released,
    [size_] becomes [n] and [capacity_] becomes [max(capacity * 2, n)]. *)
Theorem Resize_spec s v l junk (n : N) :
  repr s v l junk →
  ((n ≤ size_ v)%N →
     Resize v n s = Ok (mkSimpleVector (items_ v) n (capacity_ v)) s
     ∧ repr s (mkSimpleVector (items_ v) n (capacity_ v))
         (take (N.to_nat n) l) ((Some <$> drop (N.to_nat n) l) ++ junk))
  ∧ ((size_ v < n ≤ capacity_ v)%N →
     let k := N.to_nat n - length l in
     let v' := mkSimpleVector (items_ v) n (capacity_ v) in
     let s' := write_block (items_ v)
                 ((Some <$> l ++ replicate k dflt) ++ drop k junk) s in
     Resize v n s = Ok v' s'
     ∧ repr s' v' (l ++ replicate k dflt) (drop k junk)
     ∧ trace s' = trace s)
  ∧ ((capacity_ v < n ≤ max_alloc)%N →
     let k := N.to_nat n - length l in
     let b := fresh (dom (heap s)) in
     let blk := Some <$> l ++ replicate k dflt in
     let s' := realloc_state (raw_ptr_ (items_ v)) n blk s in
     Resize v n s
     = Ok (mkSimpleVector (mkArrayPtr (Ptr (Some b) 0)) n
             (N.max (capacity_ v * 2) n)) s'
     ∧ heap s !! b = None
     ∧ heap s' !! b = Some blk
     ∧ length blk = N.to_nat n).
Proof.
  intros Hr. split; [|split].
  - intros Hn. split; [by apply Resize_shrink|].
    destruct Hr as (Hb & Hs & Hc & Hmax).
    assert (Hle : N.to_nat n ≤ length l) by lia.
    repeat split; simpl; [| |revert Hc; len|done].
    + rewrite Hb. f_equal. rewrite (assoc_L (++)), <- fmap_app.
      by rewrite take_drop.
    + rewrite length_take. lia.
  - intros Hn k v' s'. subst k v' s'.
    split; [by eapply Resize_fill|].
    destruct (repr_cases _ _ _ _ Hr) as [(-> & -> & ->)|(b0 & -> & Hb & Hcap)];
      simpl in *; [lia|].
    split; [|done].
    apply repr_write_block; [len| |done].
    rewrite length_drop. revert Hn; len.
  - intros Hn k b blk s'. subst k b blk s'.
    split; [by eapply Resize_grow|].
    split; [apply fresh_block_None|].
    split.
    + unfold realloc_state. destruct (ptr_block _) eqn:E; simpl.
      * apply lookup_insert_eq.
      * apply lookup_insert_eq.
    + destruct Hr as (_ & Hs & Hc & _). revert Hn; len.
Qed.

(** C7: [Reserve(n)] on a vector that satisfies the data-model
    invariant.  With [n > capacity] (and an allocation that succeeds) a
    fresh block of exactly [n] slots replaces the old one, the elements
    are moved into it in order, [capacity_] becomes [n] and [size_] and
    the element values are unchanged.  With [n <= capacity] the vector
    and the heap are returned as they are.  Whenever [Reserve] returns,
    the capacity has not decreased; when the allocation fails the
    exception leaves the heap untouched. *)
Theorem Reserve_spec s v l junk (n : N) :
  repr s v l junk →
  ((capacity_ v < n ≤ max_alloc)%N →
     let b := fresh (dom (heap s)) in
     let spare := replicate (N.to_nat n - length l) None in
     let v' := mkSimpleVector (mkArrayPtr (Ptr (Some b) 0)) (size_ v) n in
     let s' := realloc_state (raw_ptr_ (items_ v)) n ((Some <$> l) ++ spare) s in
     Reserve v n s = Ok v' s'
     ∧ heap s !! b = None
     ∧ repr s' v' l spare
     ∧ length ((Some <$> l) ++ spare) = N.to_nat n)
  ∧ ((n ≤ capacity_ v)%N → Reserve v n s = Ok v s)
  ∧ (∀ v' s', Reserve v n s = Ok v' s' → (capacity_ v ≤ capacity_ v')%N)
  ∧ ((capacity_ v < n)%N → (max_alloc < n)%N →
     Reserve v n s = Throw bad_alloc s).
Proof.
  intros Hr.
  assert (Hgrow : (capacity_ v < n ≤ max_alloc)%N →
     Reserve v n s
     = Ok (mkSimpleVector (mkArrayPtr (Ptr (Some (fresh (dom (heap s)))) 0))
             (size_ v) n)
          (realloc_state (raw_ptr_ (items_ v)) n
             ((Some <$> l) ++ replicate (N.to_nat n - length l) None) s))
    by (intros; by eapply Reserve_grow).
  split; [|split; [|split]].
  - intros Hn b spare v' s'. subst b spare v' s'.
    split; [by apply Hgrow|]. split; [apply fresh_block_None|].
    destruct Hr as (_ & Hs & Hc & _).
    split; [apply repr_realloc; [done|revert Hn; len|lia] | revert Hn; len].
  - apply Reserve_keep.
  - intros v' s' Hrun.
    destruct (N.le_gt_cases n (capacity_ v)) as [Hle|Hgt].
    + rewrite Reserve_keep in Hrun by done. injection Hrun as <- _. lia.
    + destruct (N.le_gt_cases n max_alloc) as [Hok|Hbig].
      * rewrite Hgrow in Hrun by done. injection Hrun as <- _. simpl. lia.
      * by rewrite Reserve_fail in Hrun.
  - apply Reserve_fail.
Qed.

(** C6: [Erase] on a vector that satisfies the data-model invariant.
    [Erase(end())] returns [end()] and changes neither the vector nor
    the heap.  [Erase(pos)] at the position of an element [x], with the
    elements [l1] before it and [l2] after it, leaves the elements
    [l1 ++ l2] in this order, makes [size_] one less, keeps the handle
    and [capacity_], allocates and releases nothing, and returns [pos]. *)
Theorem Erase_spec s v l junk :
  repr s v l junk →
  Erase v (end_ v) s = Ok (v, end_ v) s
  ∧ ∀ l1 x l2, l = l1 ++ x :: l2 →
      let pos := ptr_add (begin_ v) (N.of_nat (length l1)) in
      let v' := mkSimpleVector (items_ v) (size_ v - 1) (capacity_ v) in
      ∃ s' junk',
        Erase v pos s = Ok (v', pos) s'
        ∧ repr s' v' (l1 ++ l2) junk'
        ∧ length junk' = S (length junk)
        ∧ trace s' = trace s.
Proof.
  intros Hr. split; [apply Erase_end|].
  intros l1 x l2 -> pos v'. subst pos v'.
  destruct (repr_cases _ _ _ _ Hr) as [(_ & Hl & _)|(b0 & -> & Hb & Hcap)].
  { by destruct l1. }
  eexists _, _. split; [|split; [|split]].
  - rewrite (Erase_run s b0 l1 x l2 junk Hb Hcap). simpl.
    do 3 f_equal. len.
  - apply repr_block; [apply lookup_upd_block|simpl; len|simpl; len|].
    simpl. lia.
  - done.
  - done.
Qed.

(** X24: [Insert(pos, value)] on a vector that satisfies the data-model
    invariant, for a position [pos] with the elements [l1] before it and
    [l2] from it onward, and a [value] bound to an object outside the
    arrays of the heap (a local or a temporary), so not to an element of
    the vector itself.  When there is a spare slot, or the allocation of
    [max(size + 1, capacity * 2)] slots succeeds, both overloads return
    the same result: the elements are [l1 ++ value :: l2], [size_] is one
    more, and the returned position is the slot that holds [value].
    With a spare slot the handle, the capacity and the allocation trace
    are unchanged; with [size == capacity] the elements are in a fresh
    block of [max(size + 1, capacity * 2)] slots, which is the new
    capacity, and the old block has been released. *)
Theorem Insert_spec s v l1 l2 junk (x : T) :
  repr s v (l1 ++ l2) junk →
  let pos := ptr_add (begin_ v) (N.of_nat (length l1)) in
  let capacity_new := N.max (size_ v + 1) (capacity_ v * 2) in
  ((size_ v < capacity_ v)%N ∨ (capacity_new ≤ max_alloc)%N) →
  ∃ v' s' junk',
    let it := ptr_add (begin_ v') (N.of_nat (length l1)) in
    Insert v pos (Obj x) s = Ok (v', it) s'
    ∧ Insert_rv v pos (Obj x) s = Ok (v', it) s'
    ∧ repr s' v' (l1 ++ x :: l2) junk'
    ∧ size_ v' = (size_ v + 1)%N
    ∧ load it s' = Ok x s'
    ∧ ((size_ v < capacity_ v)%N →
         items_ v' = items_ v ∧ capacity_ v' = capacity_ v
         ∧ trace s' = trace s)
    ∧ ((size_ v = capacity_ v)%N →
         capacity_ v' = capacity_new
         ∧ raw_ptr_ (items_ v') = Ptr (Some (fresh (dom (heap s)))) 0
         ∧ s' = realloc_state (raw_ptr_ (items_ v)) capacity_new
                  ((Some <$> l1 ++ x :: l2) ++ junk') s).
Proof.
  intros Hr pos cn Hok. subst pos.
  assert (Hload : ∀ s' v' junk', repr s' v' (l1 ++ x :: l2) junk' →
            load (ptr_add (begin_ v') (N.of_nat (length l1))) s' = Ok x s').
  { intros s' v' junk' Hr'.
    apply (subscript_load s' v' _ junk' (N.of_nat (length l1)) x Hr').
    by rewrite Nat2N.id, list_lookup_middle. }
  destruct (N.lt_ge_cases (size_ v) (capacity_ v)) as [Hlt|Hge].
  - pose proof (Insert_room ByCopy s v l1 l2 junk x Hr Hlt) as Hc.
    pose proof (Insert_room ByMove s v l1 l2 junk x Hr Hlt) as Hm.
    simpl in Hc, Hm.
    assert (Hr' : repr (write_block (items_ v)
                          ((Some <$> l1 ++ x :: l2) ++ tail junk) s)
                    (mkSimpleVector (items_ v) (size_ v + 1) (capacity_ v))
                    (l1 ++ x :: l2) (tail junk)).
    { destruct (repr_cases _ _ _ _ Hr) as [(-> & _ & ->)|(b0 & -> & Hb & Hcap)];
        simpl in *; [lia|].
      destruct junk as [|c junk]; simpl in *; [lia|].
      apply repr_write_block; [len|revert Hcap; len|done]. }
    eexists _, _, _. simpl.
    split; [exact Hc|]. split; [exact Hm|]. split; [exact Hr'|].
    split; [done|]. split; [by eapply Hload|].
    split; [intros _; simpl|intros ?; lia].
    split; [done|]. split; [done|].
    unfold write_block. by destruct (ptr_block _).
  - destruct Hok as [?|Hmax]; [lia|].
    pose proof (Insert_full ByCopy s v l1 l2 junk x Hr Hge Hmax) as Hc.
    pose proof (Insert_full ByMove s v l1 l2 junk x Hr Hge Hmax) as Hm.
    simpl in Hc, Hm. fold cn in Hc, Hm.
    assert (Hr' : repr (realloc_state (raw_ptr_ (items_ v)) cn
                    ((Some <$> l1 ++ x :: l2)
                     ++ replicate (N.to_nat cn - S (length (l1 ++ l2))) None) s)
                    (mkSimpleVector (mkArrayPtr (Ptr (Some (fresh (dom (heap s)))) 0))
                       (size_ v + 1) cn)
                    (l1 ++ x :: l2)
                    (replicate (N.to_nat cn - S (length (l1 ++ l2))) None)).
    { destruct Hr as (_ & Hs & Hcp & _).
      apply repr_realloc; [revert Hs; len| subst cn; revert Hs Hcp; len |done]. }
    eexists (mkSimpleVector (mkArrayPtr (Ptr (Some (fresh (dom (heap s)))) 0))
               (size_ v + 1) cn), _, _. simpl.
    split; [rewrite Hc; unfold begin_; simpl; by rewrite ptr_add_of_nat|].
    split; [rewrite Hm; unfold begin_; simpl; by rewrite ptr_add_of_nat|].
    split; [exact Hr'|].
    split; [done|]. split; [by apply (Hload _ _ _ Hr')|].
    split; [intros ?; lia|]. by intros _.
Qed.

(** [PushBack] is [Insert] at [end()], for both overloads. *)
Lemma PushBack_spec s v l junk (x : T) :
  repr s v l junk →
  ((size_ v < capacity_ v)%N
   ∨ (N.max (size_ v + 1) (capacity_ v * 2) ≤ max_alloc)%N) →
  ∃ v' s' junk',
    PushBack v (Obj x) s = Ok v' s'
    ∧ PushBack_rv v (Obj x) s = Ok v' s'
    ∧ repr s' v' (l ++ [x]) junk'
    ∧ size_ v' = (size_ v + 1)%N.
Proof.
  intros Hr Hok.
  assert (Hend : end_ v = ptr_add (begin_ v) (N.of_nat (length l))).
  { unfold end_, begin_. by destruct Hr as (_ & -> & _). }
  assert (Hr0 : repr s v (l ++ []) junk) by (by rewrite app_nil_r).
  unfold PushBack, PushBack_rv. rewrite Hend.
  destruct (N.lt_ge_cases (size_ v) (capacity_ v)) as [Hlt|Hge].
  - pose proof (Insert_room ByCopy s v l [] junk x Hr0 Hlt) as Hc.
    pose proof (Insert_room ByMove s v l [] junk x Hr0 Hlt) as Hm.
    simpl in Hc, Hm.
    rewrite (bind_Ok _ _ _ _ _ Hc), (bind_Ok _ _ _ _ _ Hm).
    eexists _, _, (tail junk). split; [done|]. split; [done|]. split; [|done].
    destruct (repr_cases _ _ _ _ Hr) as [(-> & _ & ->)|(b0 & -> & Hb & Hcap)];
      simpl in *; [lia|].
    destruct junk as [|c junk]; simpl in *; [lia|].
    apply repr_write_block; [len|revert Hcap; len|done].
  - destruct Hok as [?|Hmax]; [lia|].
    pose proof (Insert_full ByCopy s v l [] junk x Hr0 Hge Hmax) as Hc.
    pose proof (Insert_full ByMove s v l [] junk x Hr0 Hge Hmax) as Hm.
    simpl in Hc, Hm.
    rewrite (bind_Ok _ _ _ _ _ Hc), (bind_Ok _ _ _ _ _ Hm).
    eexists _, _, _. split; [done|]. split; [done|]. split; [|done].
    destruct Hr as (_ & Hs & Hcp & _).
    apply repr_realloc; [revert Hs; len|revert Hs Hcp; len|done].
Qed.

(** [PopBack] and [Clear] only lower [size_]. *)
Lemma PopBack_repr s v l junk :
  repr s v l junk →
  repr s (PopBack v) (take (length l - 1) l)
       ((Some <$> drop (length l - 1) l) ++ junk).
Proof.
  intros (Hb & Hs & Hc & Hmax). pose proof max_alloc_lt.
  unfold PopBack, IsEmpty. destruct (N.eqb_spec (size_ v) 0) as [E|E]; simpl.
  - destruct l; [|simpl in *; lia]. by repeat split.
  - repeat split; simpl; [| |revert Hc; len|done].
    + rewrite Hb, (assoc_L (++)), <- fmap_app. by rewrite take_drop.
    + rewrite size_sub_small by lia. rewrite length_take. lia.
Qed.

Lemma Clear_repr s v l junk :
  repr s v l junk → repr s (Clear v) [] ((Some <$> l) ++ junk).
Proof.
  intros (Hb & Hs & Hc & Hmax). repeat split; simpl; [done|revert Hc; len|done].
Qed.

(** C8: the checked accessor [At(i)] throws [out_of_range] exactly when
    [i >= size]; so [At(size())] throws on every vector, the empty one
    included, and [At(size() - 1)] returns on a non-empty one.  When it
    returns, the result is the reference to slot [i] of the block, which
    holds element [i].  In both outcomes the heap is the one before the
    call, and the vector object is not written at all. *)
Theorem At_spec s v l junk (index : N) :
  repr s v l junk →
  (At v index s = Throw out_of_range s ↔ (size_ v ≤ index)%N)
  ∧ ((index < size_ v)%N →
       ∃ x, l !! N.to_nat index = Some x
            ∧ At v index s = Ok (subscript v index) s
            ∧ load (subscript v index) s = Ok x s)
  ∧ At v (size_ v) s = Throw out_of_range s
  ∧ ((0 < size_ v)%N → ∃ p, At v (size_sub (size_ v) 1) s = Ok p s).
Proof.
  intros Hr. split; [|split; [|split]].
  - split; [|apply At_outside].
    intros Hthrow. destruct (N.le_gt_cases (size_ v) index) as [|Hlt]; [done|].
    by rewrite At_inside in Hthrow.
  - intros Hlt. pose proof Hr as (Hb & Hs & Hrest).
    destruct (lookup_lt_is_Some_2 l (N.to_nat index)) as [x Hx]; [lia|].
    exists x. split; [done|]. split; [by apply At_inside|].
    by eapply subscript_load.
  - by apply At_outside.
  - intros Hpos. eexists. apply At_inside.
    destruct Hr as (_ & Hs & Hc & Hmax). pose proof max_alloc_lt.
    rewrite size_sub_small; lia.
Qed.

(** C9: the relational operators on two vectors that satisfy the
    data-model invariant.  [==] returns true exactly when the sizes are
    equal and the elements are pairwise equal in order.  [<] returns
    true exactly when the first is lexicographically less: it is a
    proper prefix of the second up to equivalent elements, or at the
    first position where the elements differ its element is the smaller.
    [!=] is the negation of [==], [<=] the negation of [<] with the
    operands swapped, [>] is [<] with the operands swapped, and [>=] the
    negation of [<].  None of them changes the heap. *)
Theorem relational_spec s lhs rhs l1 j1 l2 j2 :
  repr s lhs l1 j1 → repr s rhs l2 j2 →
  vec_eq lhs rhs s = Ok (elements_equal l1 l2) s
  ∧ (elements_equal l1 l2 = true ↔
       size_ lhs = size_ rhs
       ∧ ∀ i a c, l1 !! i = Some a → l2 !! i = Some c → elt_eqb a c = true)
  ∧ vec_lt lhs rhs s = Ok (lex_less l1 l2) s
  ∧ (lex_less l1 l2 = true ↔ lex_lt l1 l2)
  ∧ vec_ne lhs rhs s = Ok (negb (elements_equal l1 l2)) s
  ∧ vec_le lhs rhs s = Ok (negb (lex_less l2 l1)) s
  ∧ vec_gt lhs rhs s = Ok (lex_less l2 l1) s
  ∧ vec_ge lhs rhs s = Ok (negb (lex_less l1 l2)) s.
Proof.
  intros H1 H2.
  pose proof (vec_lt_spec _ _ _ _ _ _ _ H1 H2) as Hlt.
  pose proof (vec_lt_spec _ _ _ _ _ _ _ H2 H1) as Hgt.
  split; [by eapply vec_eq_spec|]. split; [|split; [done|split]].
  - rewrite elements_equal_Forall2, Forall2_same_length_lookup.
    destruct H1 as (_ & -> & _), H2 as (_ & -> & _).
    split; intros [Hlen Hall]; (split; [lia|done]).
  - apply lex_less_lex_lt.
  - split; [by eapply vec_ne_spec|].
    unfold vec_le, vec_gt, vec_ge.
    by rewrite (bind_Ok _ _ _ _ _ Hlt), (bind_Ok _ _ _ _ _ Hgt).
Qed.

(** C10: copy and move assignment between two vectors that satisfy the
    data-model invariant.  When the contents compare equal, both
    operators return the target with its handle, size and capacity as
    they were, the source as it was, and the heap untouched, whatever
    the two capacities are.  When the contents differ, both operators
    leave in the target a copy of the source's elements in a block of
    exactly [size_ rhs] slots, so the target's capacity is the source's
    size; the source object is returned unchanged by the move overload
    too. *)
Theorem assign_spec s this rhs l1 j1 l2 j2 :
  repr s this l1 j1 → repr s rhs l2 j2 →
  (elements_equal l1 l2 = true →
     vec_eq this rhs s = Ok true s
     ∧ copy_assign this rhs s = Ok this s
     ∧ move_assign this rhs s = Ok (this, rhs) s)
  ∧ (elements_equal l1 l2 = false →
     ∃ this' s',
       copy_assign this rhs s = Ok this' s'
       ∧ move_assign this rhs s = Ok (this', rhs) s'
       ∧ capacity_ this' = size_ rhs
       ∧ size_ this' = size_ rhs
       ∧ repr s' this' l2 []).
Proof.
  intros H1 H2. split; intros Heq.
  - split; [by rewrite (vec_eq_spec _ _ _ _ _ _ _ H1 H2), Heq|].
    by eapply assign_equal.
  - destruct (assign_differ _ _ _ _ _ _ _ H1 H2 Heq) as [Hc Hm].
    eexists _, _. split; [exact Hc|]. split; [exact Hm|].
    assert (Hr : repr (free_state (raw_ptr_ (items_ this)) (copy_result s rhs l2).2)
                   (copy_result s rhs l2).1 l2 []).
    { destruct H1 as (Hb1 & _). by eapply copy_result_repr. }
    split; [|split; [|done]].
    + destruct Hr as (_ & _ & -> & _), H2 as (_ & -> & _). f_equal. simpl. lia.
    + by destruct Hr as (_ & -> & _), H2 as (_ & -> & _).
Qed.

End Contract.

(** ** Defects found against the contract, on arrays of [int] *)

Lemma ArrayPtr_move_ctor_source (a : ArrayPtr) :
  ArrayPtr_move_ctor a = (a, a).
Proof. by destruct a. Qed.

Lemma ArrayPtr_move_assign_source (this a : ArrayPtr) :
  ArrayPtr_move_assign this a = (a, a).
Proof. by destruct a. Qed.

(** C1: the defaulted move constructor and move assignment of
    [ArrayPtr] copy the handle and leave it in the source as well: moved
    from, [owner] still converts to [true], and destroying the two
    objects releases the same block twice.  (They do hand the handle to
    the destination and neither allocate nor release anything.) *)
Theorem ArrayPtr_move_keeps_source :
  ArrayPtr_move_ctor owner = (owner, owner)
  ∧ ArrayPtr_move_assign ArrayPtr_default owner = (owner, owner)
  ∧ ArrayPtr_bool (ArrayPtr_move_ctor owner).2 = true
  ∧ ArrayPtr_bool (ArrayPtr_move_assign ArrayPtr_default owner).2 = true
  ∧ (let '(dst, src) := ArrayPtr_move_ctor owner in
     ArrayPtr_dtor dst;; ArrayPtr_dtor src) demo_state = UB.
Proof. repeat split; vm_compute; reflexivity. Qed.

(** The move constructor of the container does empty its source: it
    exchanges the three members one by one.  (Stated where the result of
    [std::exchange] is constructed in place.) *)
Lemma SimpleVector_move_spec {T} `{!Element T} (s : state T) (v : SimpleVector) :
  SimpleVector_move true v s = Ok (v, SimpleVector_default) s.
Proof. by destruct v as [[p] sz cap]. Qed.

(** C2: move assignment is not destructive to its source.  After
    [b = std::move(a)] with [a = {1,2}] and [b = {3}], [a] still has
    size 2, capacity 2 and its block, and [b] holds a copy of the
    elements in a block allocated for it. *)
Theorem move_assign_copies :
  move_assign_demo heap0
  = Ok (vec_at 3 2 2, vec_at 1 2 2)
       (State {[ 1%positive := [Some 1; Some 2];
                 3%positive := [Some 1; Some 2] ]}%Z
              [Alloc 1 2; Alloc 2 1; Alloc 3 2; Free 2]).
Proof. vm_compute. reflexivity. Qed.

(** Whenever [Resize] grows a vector to less than twice its capacity, the
    capacity it records is larger than the block it has allocated. *)
Lemma Resize_grow_overstates {T} `{!Element T} (s : state T) v l junk (n : N) :
  repr s v l junk →
  (capacity_ v < n)%N → (n < capacity_ v * 2)%N → (n ≤ max_alloc)%N →
  ∃ v' s' blk,
    Resize v n s = Ok v' s'
    ∧ block_of s' (items_ v') = Some blk
    ∧ N.of_nat (length blk) = n
    ∧ (n < capacity_ v')%N.
Proof.
  intros Hr Hlo Hhi Hmax.
  eexists _, _, _. split; [by eapply Resize_grow|]. simpl.
  split; [|split; [|lia]].
  - unfold block_of, realloc_state; simpl.
    destruct (ptr_block _); simpl; apply lookup_insert_eq.
  - destruct Hr as (_ & Hs & Hc & _). revert Hlo; len.
Qed.

Lemma sized4_repr : repr sized4_state sized4_vec [0; 0; 0; 0]%Z [].
Proof. repeat split; vm_compute; congruence. Qed.

(** C3: [Resize] past the capacity breaks the invariant.  [v(4)]
    satisfies it; after [v.Resize(5)] the vector reports capacity 8
    while its block has 5 slots, so no contents satisfy the invariant,
    and the next [PushBack] writes past the end of the block. *)
Theorem Resize_breaks_invariant :
  SimpleVector_sized 4 heap0 = Ok sized4_vec sized4_state
  ∧ repr sized4_state sized4_vec [0; 0; 0; 0]%Z []
  ∧ Resize sized4_vec 5 sized4_state = Ok resized_vec resized_state
  ∧ capacity_ resized_vec = 8%N
  ∧ block_of resized_state (items_ resized_vec) = Some (replicate 5 (Some 0%Z))
  ∧ (∀ l junk, ¬ repr resized_state resized_vec l junk)
  ∧ PushBack resized_vec (Obj 7%Z) resized_state = UB.
Proof.
  split; [by vm_compute|]. split; [apply sized4_repr|].
  split; [by vm_compute|]. split; [done|]. split; [by vm_compute|].
  split; [|by vm_compute].
  intros l junk (Hb & _ & Hc & _).
  assert (Hblk : block_of resized_state (items_ resized_vec)
                 = Some (replicate 5 (Some 0%Z))) by (by vm_compute).
  rewrite Hblk in Hb. injection Hb as Hb.
  apply (f_equal length) in Hb. rewrite length_app, length_fmap in Hb.
  simpl in Hb, Hc. lia.
Qed.

(** C5: with a spare slot, [Insert] reads the reference [value] after it
    has shifted the elements from [pos] on, so when [value] refers to an
    element of the vector behind [pos] the value inserted is not the one
    passed.  On [{1,2,3}] with capacity 4, [v.Insert(v.cbegin(), v[1])]
    is given 2 and leaves [{1,1,2,3}], for both overloads: the slot the
    returned position denotes holds 1.  The reallocating branch reads
    the same reference from the old block before anything is written to
    it: on [{1,2,3}] with capacity 3 the same call leaves [{2,1,2,3}]. *)
Theorem Insert_aliased_value :
  let shifted :=
    write_block (items_ vec_123_spare) [Some 1; Some 1; Some 2; Some 3]%Z
      demo_state in
  load (subscript vec_123_spare 1) demo_state = Ok 2%Z demo_state
  ∧ Insert vec_123_spare (begin_ vec_123_spare)
      (Elem (subscript vec_123_spare 1)) demo_state
    = Ok (vec_at 1 4 4, begin_ vec_123_spare) shifted
  ∧ Insert_rv vec_123_spare (begin_ vec_123_spare)
      (Elem (subscript vec_123_spare 1)) demo_state
    = Ok (vec_at 1 4 4, begin_ vec_123_spare) shifted
  ∧ repr shifted (vec_at 1 4 4) [1; 1; 2; 3]%Z []
  ∧ load (begin_ vec_123_spare) shifted = Ok 1%Z shifted
  ∧ load (subscript vec_123 1) demo_state = Ok 2%Z demo_state
  ∧ Insert vec_123 (begin_ vec_123) (Elem (subscript vec_123 1)) demo_state
    = Ok (vec_at 6 4 6, begin_ (vec_at 6 4 6))
         (realloc_state (raw_ptr_ (items_ vec_123)) 6
            [Some 2; Some 1; Some 2; Some 3; None; None]%Z demo_state).
Proof.
  repeat split; vm_compute; congruence.
Qed.

(** ** The contract at concrete arrays *)

Lemma repr_123_spare : repr demo_state vec_123_spare [1; 2; 3]%Z [None].
Proof. repeat split; vm_compute; congruence. Qed.

Lemma repr_123 : repr demo_state vec_123 [1; 2; 3]%Z [].
Proof. repeat split; vm_compute; congruence. Qed.

Lemma repr_12 : repr demo_state vec_12 [1; 2]%Z [].
Proof. repeat split; vm_compute; congruence. Qed.

Lemma repr_13 : repr demo_state vec_13 [1; 3]%Z [].
Proof. repeat split; vm_compute; congruence. Qed.

Lemma repr_129 : repr demo_state vec_129 [1; 2; 9]%Z [].
Proof. repeat split; vm_compute; congruence. Qed.

(** [Resize] of [{1,2,3}] (capacity 4) to 2, to 4 and to 6. *)
Lemma Resize_spec_witness :
  repr demo_state vec_123_spare [1; 2; 3]%Z [None]
  ∧ Resize vec_123_spare 2 demo_state = Ok (vec_at 1 2 4) demo_state
  ∧ (∃ s', Resize vec_123_spare 4 demo_state = Ok (vec_at 1 4 4) s'
           ∧ repr s' (vec_at 1 4 4) [1; 2; 3; 0]%Z [])
  ∧ (∃ s', Resize vec_123_spare 6 demo_state = Ok (vec_at 6 6 8) s'
           ∧ heap s' !! 6%positive
             = Some (Some <$> [1; 2; 3; 0; 0; 0]%Z)).
Proof.
  split; [apply repr_123_spare|]. split; [|split].
  - destruct (Resize_spec demo_state vec_123_spare _ _ 2 repr_123_spare)
      as (H & _ & _).
    apply H. vm_compute. congruence.
  - destruct (Resize_spec demo_state vec_123_spare _ _ 4 repr_123_spare)
      as (_ & H & _).
    destruct H as (Hrun & Hrepr & _); [vm_compute; split; congruence|].
    eexists. split; [exact Hrun|exact Hrepr].
  - destruct (Resize_spec demo_state vec_123_spare _ _ 6 repr_123_spare)
      as (_ & _ & H).
    destruct H as (Hrun & _ & Hblk & _); [vm_compute; split; congruence|].
    eexists. split; [exact Hrun|exact Hblk].
Defined.

(** [Reserve(10)] and [Reserve(2)] on [{1,2,3}] (capacity 4). *)
Lemma Reserve_spec_witness :
  repr demo_state vec_123_spare [1; 2; 3]%Z [None]
  ∧ (∃ s', Reserve vec_123_spare 10 demo_state = Ok (vec_at 6 3 10) s'
           ∧ repr s' (vec_at 6 3 10) [1; 2; 3]%Z (replicate 7 None))
  ∧ Reserve vec_123_spare 2 demo_state = Ok vec_123_spare demo_state.
Proof.
  destruct (Reserve_spec demo_state vec_123_spare _ _ 10 repr_123_spare)
    as (Hgrow & _).
  destruct (Reserve_spec demo_state vec_123_spare _ _ 2 repr_123_spare)
    as (_ & Hkeep & _).
  split; [apply repr_123_spare|]. split.
  - destruct Hgrow as (Hrun & _ & Hrepr & _); [vm_compute; split; congruence|].
    eexists. split; [exact Hrun|exact Hrepr].
  - apply Hkeep. vm_compute. congruence.
Defined.

(** [Erase] of the middle element of [{1,2,3}]. *)
Lemma Erase_spec_witness :
  repr demo_state vec_123 [1; 2; 3]%Z []
  ∧ ∃ s' junk',
      Erase vec_123 (ptr_add (begin_ vec_123) 1) demo_state
      = Ok (vec_at 2 2 3, ptr_add (begin_ vec_123) 1) s'
      ∧ repr s' (vec_at 2 2 3) [1; 3]%Z junk'.
Proof.
  split; [apply repr_123|].
  destruct (Erase_spec demo_state vec_123 _ _ repr_123) as (_ & H).
  destruct (H [1]%Z 2%Z [3]%Z eq_refl) as (s' & junk' & Hrun & Hrepr & _).
  exists s', junk'. split; [exact Hrun|exact Hrepr].
Defined.

(** [Insert] of 9 before the second element of [{1,2,3}], with a spare
    slot and without one. *)
Lemma Insert_spec_witness :
  repr demo_state vec_123_spare ([1] ++ [2; 3])%Z [None]
  ∧ (∃ v' s' junk',
       Insert vec_123_spare (ptr_add (begin_ vec_123_spare) 1) (Obj 9%Z) demo_state
       = Ok (v', ptr_add (begin_ v') 1) s'
       ∧ repr s' v' [1; 9; 2; 3]%Z junk'
       ∧ capacity_ v' = 4%N)
  ∧ (∃ v' s' junk',
       Insert_rv vec_123 (ptr_add (begin_ vec_123) 1) (Obj 9%Z) demo_state
       = Ok (v', ptr_add (begin_ v') 1) s'
       ∧ repr s' v' [1; 9; 2; 3]%Z junk'
       ∧ capacity_ v' = 6%N).
Proof.
  split; [apply repr_123_spare|]. split.
  - destruct (Insert_spec demo_state vec_123_spare [1]%Z [2; 3]%Z _ 9%Z
                repr_123_spare)
      as (v' & s' & junk' & Hrun & _ & Hrepr & _ & _ & Hroom & _).
    { left. vm_compute. congruence. }
    exists v', s', junk'. split; [exact Hrun|]. split; [exact Hrepr|].
    destruct Hroom as (_ & Hcap & _); [vm_compute; congruence|exact Hcap].
  - destruct (Insert_spec demo_state vec_123 [1]%Z [2; 3]%Z _ 9%Z repr_123)
      as (v' & s' & junk' & _ & Hrun & Hrepr & _ & _ & _ & Hfull).
    { right. vm_compute. congruence. }
    exists v', s', junk'. split; [exact Hrun|]. split; [exact Hrepr|].
    destruct Hfull as (Hcap & _); [reflexivity|exact Hcap].
Defined.

(** [At(3)] and [At(2)] on [{1,2,3}]. *)
Lemma At_spec_witness :
  repr demo_state vec_123 [1; 2; 3]%Z []
  ∧ At vec_123 3 demo_state = Throw out_of_range demo_state
  ∧ At vec_123 2 demo_state = Ok (subscript vec_123 2) demo_state
  ∧ load (subscript vec_123 2) demo_state = Ok 3%Z demo_state.
Proof.
  split; [apply repr_123|].
  destruct (At_spec demo_state vec_123 _ _ 2 repr_123) as (_ & Hin & Hend & _).
  split; [exact Hend|].
  destruct Hin as (x & Hx & Hrun & Hload); [vm_compute; congruence|].
  injection Hx as <-. split; [exact Hrun|exact Hload].
Defined.

(** The comparisons the specification lists:
    [{1,2,3} == {1,2,3}], [{1,2,3} != {1,2}], [{1,2} < {1,2,3}] and
    [{1,3} > {1,2,9}]. *)
Lemma relational_spec_witness :
  (repr demo_state vec_123_spare [1; 2; 3]%Z [None]
   ∧ repr demo_state vec_123 [1; 2; 3]%Z [])
  ∧ vec_eq vec_123_spare vec_123 demo_state = Ok true demo_state
  ∧ vec_eq vec_123 vec_12 demo_state = Ok false demo_state
  ∧ vec_lt vec_12 vec_123 demo_state = Ok true demo_state
  ∧ vec_gt vec_13 vec_129 demo_state = Ok true demo_state.
Proof.
  split; [split; [apply repr_123_spare|apply repr_123]|].
  split; [|split; [|split]].
  - by destruct (relational_spec demo_state _ _ _ _ _ _ repr_123_spare repr_123)
      as (H & _).
  - by destruct (relational_spec demo_state _ _ _ _ _ _ repr_123 repr_12)
      as (H & _).
  - by destruct (relational_spec demo_state _ _ _ _ _ _ repr_12 repr_123)
      as (_ & _ & H & _).
  - by destruct (relational_spec demo_state _ _ _ _ _ _ repr_13 repr_129)
      as (_ & _ & _ & _ & _ & _ & H & _).
Defined.

(** Assigning [{1,2,3}] (capacity 3) to [{1,2,3}] (capacity 4) changes
    nothing; assigning [{1,3}] to it leaves capacity 2. *)
Lemma assign_spec_witness :
  (repr demo_state vec_123_spare [1; 2; 3]%Z [None]
   ∧ repr demo_state vec_123 [1; 2; 3]%Z [])
  ∧ copy_assign vec_123_spare vec_123 demo_state = Ok vec_123_spare demo_state
  ∧ move_assign vec_123_spare vec_123 demo_state
    = Ok (vec_123_spare, vec_123) demo_state
  ∧ ∃ this' s',
      move_assign vec_123_spare vec_13 demo_state = Ok (this', vec_13) s'
      ∧ capacity_ this' = 2%N
      ∧ repr s' this' [1; 3]%Z [].
Proof.
  split; [split; [apply repr_123_spare|apply repr_123]|].
  destruct (assign_spec demo_state _ _ _ _ _ _ repr_123_spare repr_123)
    as (Hsame & _).
  destruct (assign_spec demo_state _ _ _ _ _ _ repr_123_spare repr_13)
    as (_ & Hdiff).
  destruct Hsame as (_ & Hc & Hm); [reflexivity|].
  destruct Hdiff as (this' & s' & _ & Hm' & Hcap & _ & Hrepr); [reflexivity|].
  split; [exact Hc|]. split; [exact Hm|].
  exists this', s'. split; [exact Hm'|]. split; [exact Hcap|exact Hrepr].
Defined.

(** ** Further properties of the two classes *)

Section Further.
Context {T : Type} `{!Element T}.
Implicit Types (s : state T) (v w : SimpleVector) (l : list T)
  (junk : list (option T)).

Lemma heap_without_write a blk s :
  heap_without a (write_block a blk s) = heap_without a s.
Proof.
  unfold heap_without, write_block. destruct (ptr_block (raw_ptr_ a)) as [b|];
    [|done].
  apply map_eq. intros i. simpl.
  rewrite !lookup_delete, lookup_insert. by repeat case_decide.
Qed.

Lemma heap_without_realloc old n blk s :
  heap_without (mkArrayPtr (Ptr (Some (fresh (dom (heap s)))) 0))
    (realloc_state old n blk s)
  = heap_without (mkArrayPtr old) s.
Proof.
  unfold heap_without, realloc_state; simpl.
  pose proof (fresh_block_None s) as Hf.
  destruct (ptr_block old) as [b0|]; simpl; apply map_eq; intros i;
    rewrite !lookup_delete, ?lookup_insert, ?lookup_delete;
    repeat case_decide; subst; congruence.
Qed.

Lemma allocations_app t1 t2 :
  allocations (t1 ++ t2) = allocations t1 + allocations t2.
Proof. induction t1 as [|[] t1 IH]; simpl; by rewrite ?IH. Qed.

Lemma allocations_realloc old n blk s :
  allocations (trace (realloc_state old n blk s)) = S (allocations (trace s)).
Proof.
  unfold realloc_state. destruct (ptr_block old); simpl;
    rewrite allocations_app; simpl; lia.
Qed.

Lemma trace_write_block a blk s : trace (write_block a blk s) = trace s.
Proof. unfold write_block. by destruct (ptr_block _). Qed.

(** Whatever leaves the rest of the heap alone leaves every separate
    vector alone. *)
Lemma frame_repr s s' a a' w l junk :
  repr s w l junk →
  heap_without a' s' = heap_without a s →
  ptr_block (raw_ptr_ (items_ w)) = None
  ∨ ptr_block (raw_ptr_ (items_ w)) ≠ ptr_block (raw_ptr_ a) →
  repr s' w l junk.
Proof.
  intros (Hb & Hrest) Hframe Hsep. split; [|done].
  destruct w as [[[[bw|] [|o]]] sz cap]; unfold block_of in *; simpl in *;
    try done.
  destruct Hsep as [?|Hne]; [done|].
  assert (Hw : heap_without a s !! bw = Some ((Some <$> l) ++ junk)).
  { unfold heap_without. destruct (ptr_block (raw_ptr_ a)) as [b|]; [|done].
    rewrite lookup_delete_ne; [done|congruence]. }
  rewrite <- Hframe in Hw. unfold heap_without in Hw.
  destruct (ptr_block (raw_ptr_ a')) as [b'|]; [|done].
  rewrite lookup_delete in Hw. by case_decide.
Qed.

(** One [Insert], for either overload, with everything the later
    statements need. *)
Lemma Insert_step m s v l1 l2 junk (x : T) :
  repr s v (l1 ++ l2) junk →
  ((size_ v < capacity_ v)%N
   ∨ (N.max (size_ v + 1) (capacity_ v * 2) ≤ max_alloc)%N) →
  ∃ v' s' junk',
    Insert_by m v (ptr_add (begin_ v) (N.of_nat (length l1))) (Obj x) s
    = Ok (v', ptr_add (begin_ v') (N.of_nat (length l1))) s'
    ∧ repr s' v' (l1 ++ x :: l2) junk'
    ∧ heap_without (items_ v') s' = heap_without (items_ v) s
    ∧ ((size_ v < capacity_ v)%N →
         items_ v' = items_ v ∧ capacity_ v' = capacity_ v
         ∧ junk' = tail junk ∧ trace s' = trace s)
    ∧ ((size_ v = capacity_ v)%N →
         capacity_ v' = N.max (size_ v + 1) (capacity_ v * 2)
         ∧ allocations (trace s') = S (allocations (trace s))).
Proof.
  intros Hr Hok.
  destruct (N.lt_ge_cases (size_ v) (capacity_ v)) as [Hlt|Hge].
  - pose proof (Insert_room m s v l1 l2 junk x Hr Hlt) as Hrun.
    simpl in Hrun.
    eexists (mkSimpleVector (items_ v) (size_ v + 1) (capacity_ v)), _, (tail junk).
    split; [exact Hrun|]. split; [|split; [|split]].
    + destruct (repr_cases _ _ _ _ Hr) as [(-> & _ & ->)|(b0 & -> & Hb & Hcap)];
        simpl in *; [lia|].
      destruct junk as [|c junk]; simpl in *; [lia|].
      apply repr_write_block; [len|revert Hcap; len|done].
    + apply heap_without_write.
    + intros _. simpl. by rewrite trace_write_block.
    + intros ?. lia.
  - destruct Hok as [?|Hmax]; [lia|].
    pose proof (Insert_full m s v l1 l2 junk x Hr Hge Hmax) as Hrun.
    simpl in Hrun.
    eexists (mkSimpleVector (mkArrayPtr (Ptr (Some (fresh (dom (heap s)))) 0))
               (size_ v + 1) (N.max (size_ v + 1) (capacity_ v * 2))), _, _.
    split; [rewrite Hrun; unfold begin_; simpl; by rewrite ptr_add_of_nat|].
    split; [|split; [|split]].
    + destruct Hr as (_ & Hs & Hcp & _).
      apply repr_realloc; [revert Hs; len|revert Hs Hcp; len|done].
    + simpl. rewrite heap_without_realloc. by destruct (items_ v).
    + intros ?. lia.
    + intros _. split; [done|]. apply allocations_realloc.
Qed.

(** One [PushBack]. *)
Lemma PushBack_step s v l junk (x : T) :
  repr s v l junk →
  ((size_ v < capacity_ v)%N
   ∨ (N.max (size_ v + 1) (capacity_ v * 2) ≤ max_alloc)%N) →
  ∃ v' s' junk',
    PushBack v (Obj x) s = Ok v' s'
    ∧ repr s' v' (l ++ [x]) junk'
    ∧ heap_without (items_ v') s' = heap_without (items_ v) s
    ∧ ((size_ v < capacity_ v)%N →
         items_ v' = items_ v ∧ capacity_ v' = capacity_ v
         ∧ junk' = tail junk ∧ trace s' = trace s)
    ∧ ((size_ v = capacity_ v)%N →
         capacity_ v' = N.max (size_ v + 1) (capacity_ v * 2)
         ∧ allocations (trace s') = S (allocations (trace s))).
Proof.
  intros Hr Hok.
  assert (Hend : end_ v = ptr_add (begin_ v) (N.of_nat (length l))).
  { unfold end_, begin_. by destruct Hr as (_ & -> & _). }
  assert (Hr0 : repr s v (l ++ []) junk) by (by rewrite app_nil_r).
  destruct (Insert_step ByCopy s v l [] junk x Hr0 Hok)
    as (v' & s' & junk' & Hrun & Hrest).
  exists v', s', junk'. split; [|done].
  unfold PushBack. rewrite Hend. simpl in Hrun.
  by rewrite (bind_Ok _ _ _ _ _ Hrun).
Qed.

Lemma SimpleVector_dtor_spec s v l junk :
  repr s v l junk →
  SimpleVector_dtor v s = Ok tt (free_state (raw_ptr_ (items_ v)) s)
  ∧ heap (free_state (raw_ptr_ (items_ v)) s) = heap_without (items_ v) s.
Proof.
  intros (Hb & _). unfold SimpleVector_dtor, ArrayPtr_dtor.
  split; [by eapply delete_array_spec|].
  unfold free_state, heap_without. by destruct (ptr_block _).
Qed.

(** *** Sequences of [PushBack] *)

(** X1: pushing the elements [xs] one by one onto a vector that holds
    [l] leaves [l ++ xs], in this order, as long as the largest block
    the growth policy can ask for is allocatable.  Nothing but the
    vector's own block changes in the heap, and the capacity ends no
    larger than [max(capacity, 2 * size)]. *)
Theorem PushBack_all_spec s v l junk (xs : list T) :
  repr s v l junk →
  (N.max (capacity_ v) (2 * (size_ v + N.of_nat (length xs))) ≤ max_alloc)%N →
  ∃ v' s' junk',
    PushBack_all v xs s = Ok v' s'
    ∧ repr s' v' (l ++ xs) junk'
    ∧ size_ v' = (size_ v + N.of_nat (length xs))%N
    ∧ heap_without (items_ v') s' = heap_without (items_ v) s
    ∧ (capacity_ v' ≤ N.max (capacity_ v) (2 * size_ v'))%N.
Proof.
  revert s v l junk.
  induction xs as [|x xs IH]; intros s v l junk Hr Hmax; simpl.
  - exists v, s, junk. rewrite app_nil_r.
    split; [done|]. split; [done|]. split; [lia|]. split; [done|lia].
  - pose proof Hr as (_ & Hs & Hc & _).
    destruct (PushBack_step s v l junk x Hr)
      as (v1 & s1 & junk1 & Hrun & Hr1 & Hframe & Hroom & Hfull);
      [simpl in Hmax; lia|].
    pose proof Hr1 as (_ & Hs1 & Hc1 & _).
    assert (Hsz1 : size_ v1 = (size_ v + 1)%N) by (revert Hs Hs1; len).
    assert (Hcap1 : (capacity_ v1
                     ≤ N.max (capacity_ v) (2 * (size_ v + 1)))%N).
    { destruct (N.lt_ge_cases (size_ v) (capacity_ v)) as [Hlt|Hge].
      - destruct (Hroom Hlt) as (_ & -> & _). lia.
      - destruct Hfull as (-> & _); lia. }
    destruct (IH s1 v1 (l ++ [x]) junk1 Hr1)
      as (v' & s' & junk' & Hrun' & Hr' & Hsz' & Hframe' & Hcap');
      [simpl in Hmax; lia|].
    exists v', s', junk'.
    split; [by rewrite (bind_Ok _ _ _ _ _ Hrun)|].
    split; [by rewrite <- (assoc_L (++)) in Hr'|].
    split; [simpl; lia|]. split; [congruence|]. simpl in *. lia.
Qed.

(** Growth by doubling, from a vector that already owns a block. *)
Lemma PushBack_all_doubling (xs : list T) :
  ∀ s v l junk,
  repr s v l junk →
  (1 ≤ capacity_ v)%N → (capacity_ v < 2 * size_ v)%N →
  (2 * (size_ v + N.of_nat (length xs)) ≤ max_alloc)%N →
  ∃ v' s' junk' g,
    PushBack_all v xs s = Ok v' s'
    ∧ repr s' v' (l ++ xs) junk'
    ∧ heap_without (items_ v') s' = heap_without (items_ v) s
    ∧ allocations (trace s') = allocations (trace s) + g
    ∧ capacity_ v' = (capacity_ v * 2 ^ N.of_nat g)%N
    ∧ (capacity_ v' < 2 * size_ v')%N.
Proof.
  induction xs as [|x xs IH]; intros s v l junk Hr Hone Htight Hmax; simpl.
  - exists v, s, junk, 0. rewrite app_nil_r.
    split; [done|]. split; [done|]. split; [done|]. split; [lia|].
    split; [simpl; lia|done].
  - pose proof Hr as (_ & Hs & Hc & _).
    destruct (PushBack_step s v l junk x Hr)
      as (v1 & s1 & junk1 & Hrun & Hr1 & Hframe & Hroom & Hfull);
      [simpl in Hmax; lia|].
    pose proof Hr1 as (_ & Hs1 & Hc1 & _).
    assert (Hsz1 : size_ v1 = (size_ v + 1)%N) by (revert Hs Hs1; len).
    assert (Hstep : ∃ g1, allocations (trace s1) = allocations (trace s) + g1
                          ∧ capacity_ v1 = (capacity_ v * 2 ^ N.of_nat g1)%N).
    { destruct (N.lt_ge_cases (size_ v) (capacity_ v)) as [Hlt|Hge].
      - destruct (Hroom Hlt) as (_ & -> & _ & ->). exists 0. simpl. lia.
      - destruct Hfull as (-> & ->); [lia|]. exists 1. simpl. lia. }
    destruct Hstep as (g1 & Hg1 & Hcap1).
    assert (Hpow : (1 ≤ 2 ^ N.of_nat g1)%N).
    { assert (2 ^ N.of_nat g1 ≠ 0)%N by (by apply N.pow_nonzero). lia. }
    assert (Hg1' : g1 ≤ 1).
    { destruct (N.lt_ge_cases (size_ v) (capacity_ v)) as [Hlt|Hge].
      - destruct (Hroom Hlt) as (_ & _ & _ & Ht). rewrite Ht in Hg1. lia.
      - destruct Hfull as (_ & Ha); [lia|]. lia. }
    assert (Htight1 : (capacity_ v1 < 2 * size_ v1)%N).
    { rewrite Hcap1, Hsz1. destruct g1 as [|[|?]]; simpl in *; lia. }
    destruct (IH s1 v1 (l ++ [x]) junk1 Hr1)
      as (v' & s' & junk' & g & Hrun' & Hr' & Hframe' & Hg & Hcap' & Htight');
      [nia|done|simpl in Hmax; lia|].
    exists v', s', junk', (g1 + g).
    split; [by rewrite (bind_Ok _ _ _ _ _ Hrun)|].
    split; [by rewrite <- (assoc_L (++)) in Hr'|].
    split; [congruence|]. split; [lia|]. split; [|done].
    rewrite Hcap', Hcap1, Nat2N.inj_add, N.pow_add_r. lia.
Qed.

(** X2: building a vector by [n >= 1] calls of [PushBack] on an empty
    one gives the [n] elements in order with [n <= capacity < 2 * n];
    the capacity is a power of two, [2 ^ g], reached with [g + 1]
    allocations, so the number of allocations is logarithmic in [n].
    The rest of the heap is what it was, and destroying the vector
    gives back the heap the construction started from. *)
Theorem PushBack_all_from_empty s (xs : list T) :
  xs ≠ [] →
  (2 * N.of_nat (length xs) ≤ max_alloc)%N →
  ∃ v' s' junk' g,
    PushBack_all SimpleVector_default xs s = Ok v' s'
    ∧ repr s' v' xs junk'
    ∧ heap_without (items_ v') s' = heap s
    ∧ allocations (trace s') = allocations (trace s) + S g
    ∧ capacity_ v' = (2 ^ N.of_nat g)%N
    ∧ (N.of_nat (length xs) ≤ capacity_ v' < 2 * N.of_nat (length xs))%N
    ∧ ∃ s'', SimpleVector_dtor v' s' = Ok tt s'' ∧ heap s'' = heap s.
Proof.
  intros Hne Hmax. destruct xs as [|x xs]; [done|]. simpl in *.
  assert (Hr0 : repr s SimpleVector_default [] []).
  { repeat split. pose proof max_alloc_lt. simpl. lia. }
  destruct (PushBack_step s _ _ _ x Hr0)
    as (v1 & s1 & junk1 & Hrun & Hr1 & Hframe & _ & Hfull);
    [right; simpl; lia|].
  destruct Hfull as (Hcap1 & Ha1); [done|]. simpl in Hcap1.
  pose proof Hr1 as (_ & Hs1 & _). simpl in Hs1.
  destruct (PushBack_all_doubling xs s1 v1 [x] junk1 Hr1)
    as (v' & s' & junk' & g & Hrun' & Hr' & Hframe' & Hg & Hcap' & Htight');
    [lia|lia|lia|].
  exists v', s', junk', g.
  split; [by rewrite (bind_Ok _ _ _ _ _ Hrun)|].
  split; [done|]. split; [by rewrite Hframe', Hframe|].
  split; [lia|]. split; [rewrite Hcap', Hcap1; lia|].
  split; [destruct Hr' as (_ & Hs' & Hc' & _); simpl in *; lia|].
  destruct (SimpleVector_dtor_spec _ _ _ _ Hr') as (Hd & Hh).
  eexists. split; [exact Hd|]. by rewrite Hh, Hframe', Hframe.
Qed.

(** While spare slots remain, [PushBack] never reallocates. *)
Lemma PushBack_all_within s v l junk (xs : list T) :
  repr s v l junk →
  length xs ≤ length junk →
  ∃ s',
    PushBack_all v xs s
    = Ok (mkSimpleVector (items_ v) (size_ v + N.of_nat (length xs))
            (capacity_ v)) s'
    ∧ repr s' (mkSimpleVector (items_ v) (size_ v + N.of_nat (length xs))
                 (capacity_ v))
           (l ++ xs) (drop (length xs) junk)
    ∧ trace s' = trace s.
Proof.
  revert s v l junk.
  induction xs as [|x xs IH]; intros s v l junk Hr Hlen; simpl.
  - exists s. rewrite app_nil_r, N.add_0_r, drop_0. by destruct v.
  - pose proof Hr as (_ & Hs & Hc & _).
    simpl in Hlen.
    assert (Hlt : (size_ v < capacity_ v)%N) by lia.
    destruct (PushBack_step s v l junk x Hr)
      as (v1 & s1 & junk1 & Hrun & Hr1 & _ & Hroom & _); [by left|].
    destruct (Hroom Hlt) as (Hitems & Hcap & -> & Htrace).
    pose proof Hr1 as (_ & Hs1 & _).
    destruct (IH s1 v1 (l ++ [x]) (tail junk) Hr1)
      as (s' & Hrun' & Hr' & Htrace').
    { destruct junk; simpl in *; lia. }
    exists s'. rewrite (bind_Ok _ _ _ _ _ Hrun).
    assert (Hv : mkSimpleVector (items_ v1)
                   (size_ v1 + N.of_nat (length xs)) (capacity_ v1)
                 = mkSimpleVector (items_ v)
                     (size_ v + N.pos (Pos.of_succ_nat (length xs)))
                     (capacity_ v)).
    { rewrite Hitems, Hcap. f_equal. revert Hs Hs1; len. }
    rewrite Hv in Hrun', Hr'.
    split; [done|]. split; [|congruence].
    rewrite <- (assoc_L (++)) in Hr'. simpl in Hr'.
    destruct junk as [|c junk]; simpl in *; [lia|done].
Qed.

(** X3: after [Reserve(n)], [PushBack] does not reallocate until the
    size passes [max(capacity, n)]: the pushes keep the handle that
    [Reserve] left (so positions into the vector stay valid), the
    capacity and the allocation trace, and append the elements in
    order. *)
Theorem Reserve_then_PushBack s v l junk (n : N) (xs : list T) :
  repr s v l junk →
  (n ≤ max_alloc)%N →
  (size_ v + N.of_nat (length xs) ≤ N.max (capacity_ v) n)%N →
  ∃ v1 s1 s' junk',
    Reserve v n s = Ok v1 s1
    ∧ capacity_ v1 = N.max (capacity_ v) n
    ∧ PushBack_all v1 xs s1
      = Ok (mkSimpleVector (items_ v1) (size_ v + N.of_nat (length xs))
              (capacity_ v1)) s'
    ∧ repr s' (mkSimpleVector (items_ v1) (size_ v + N.of_nat (length xs))
                 (capacity_ v1)) (l ++ xs) junk'
    ∧ trace s' = trace s1.
Proof.
  intros Hr Hn Hlen. pose proof Hr as (_ & Hs & Hc & Hmax).
  destruct (N.le_gt_cases n (capacity_ v)) as [Hle|Hgt].
  - destruct (PushBack_all_within s v l junk xs Hr) as (s' & Hrun & Hr' & Ht);
      [lia|].
    eexists v, s, s', _. split; [by apply Reserve_keep|].
    split; [lia|]. done.
  - assert (Hr1 : repr (realloc_state (raw_ptr_ (items_ v)) n
                          ((Some <$> l) ++ replicate (N.to_nat n - length l) None) s)
                    (mkSimpleVector
                       (mkArrayPtr (Ptr (Some (fresh (dom (heap s)))) 0))
                       (size_ v) n)
                    l (replicate (N.to_nat n - length l) None)).
    { apply repr_realloc; [done|revert Hgt; len|done]. }
    destruct (PushBack_all_within _ _ _ _ xs Hr1) as (s' & Hrun & Hr' & Ht);
      [revert Hlen; len|].
    eexists _, _, s', _. split; [by eapply Reserve_grow|].
    split; [simpl; lia|]. done.
Qed.

(** X4: [PushBack] followed by [PopBack] gives back the elements the
    vector had, with the size it had; the capacity is the one the push
    left (a [PopBack] never shrinks it). *)
Theorem PushBack_PopBack s v l junk (x : T) :
  repr s v l junk →
  ((size_ v < capacity_ v)%N
   ∨ (N.max (size_ v + 1) (capacity_ v * 2) ≤ max_alloc)%N) →
  ∃ v1 s' junk',
    PushBack v (Obj x) s = Ok v1 s'
    ∧ repr s' (PopBack v1) l junk'
    ∧ size_ (PopBack v1) = size_ v
    ∧ capacity_ (PopBack v1) = capacity_ v1
    ∧ items_ (PopBack v1) = items_ v1.
Proof.
  intros Hr Hok. pose proof Hr as (_ & Hs & _).
  destruct (PushBack_step s v l junk x Hr Hok)
    as (v1 & s' & junk' & Hrun & Hr1 & _).
  pose proof (PopBack_repr _ _ _ _ Hr1) as Hpop.
  rewrite length_app in Hpop. simpl in Hpop.
  replace (length l + 1 - 1) with (length l) in Hpop by lia.
  rewrite take_app_length in Hpop.
  eexists v1, s', _. split; [done|]. split; [exact Hpop|].
  split; [by destruct Hpop as (_ & -> & _)|].
  unfold PopBack. by destruct (negb (IsEmpty v1)).
Qed.

(** One [Erase] at the position of an element. *)
Lemma Erase_step s v l1 (x : T) l2 junk :
  repr s v (l1 ++ x :: l2) junk →
  let pos := ptr_add (begin_ v) (N.of_nat (length l1)) in
  let v' := mkSimpleVector (items_ v) (size_ v - 1) (capacity_ v) in
  ∃ s' c,
    Erase v pos s = Ok (v', pos) s'
    ∧ repr s' v' (l1 ++ l2) (c :: junk)
    ∧ heap_without (items_ v) s' = heap_without (items_ v) s
    ∧ trace s' = trace s.
Proof.
  intros Hr pos v'. subst pos v'.
  destruct (repr_cases _ _ _ _ Hr) as [(_ & Hl & _)|(b0 & -> & Hb & Hcap)].
  { by destruct l1. }
  eexists _, _. split; [|split; [|split]].
  - rewrite (Erase_run s b0 l1 x l2 junk Hb Hcap). simpl.
    do 3 f_equal. len.
  - apply repr_block; [apply lookup_upd_block|simpl; len|simpl; len|].
    simpl. lia.
  - apply (heap_without_write (mkArrayPtr (Ptr (Some b0) 0))).
  - done.
Qed.

(** X5: [Insert] followed by [Erase] at the position [Insert] returned
    gives back the elements the vector had, in order, with the size it
    had, for both overloads of [Insert]. *)
Theorem Insert_Erase s v l1 l2 junk (x : T) :
  repr s v (l1 ++ l2) junk →
  let pos := ptr_add (begin_ v) (N.of_nat (length l1)) in
  ((size_ v < capacity_ v)%N
   ∨ (N.max (size_ v + 1) (capacity_ v * 2) ≤ max_alloc)%N) →
  ∃ v' it s' junk',
    ('(v1, it1) ← Insert v pos (Obj x); Erase v1 it1) s = Ok (v', it) s'
    ∧ ('(v1, it1) ← Insert_rv v pos (Obj x); Erase v1 it1) s
      = Ok (v', it) s'
    ∧ repr s' v' (l1 ++ l2) junk'
    ∧ size_ v' = size_ v
    ∧ it = ptr_add (begin_ v') (N.of_nat (length l1)).
Proof.
  intros Hr pos Hok. subst pos. pose proof Hr as (_ & Hs & _).
  destruct (Insert_step ByCopy s v l1 l2 junk x Hr Hok)
    as (v1 & s1 & junk1 & Hc & Hr1 & _).
  destruct (Insert_step ByMove s v l1 l2 junk x Hr Hok)
    as (v1' & s1' & junk1' & Hm & _).
  assert (Hsame : Insert_by ByMove v
                    (ptr_add (begin_ v) (N.of_nat (length l1))) (Obj x) s
                  = Ok (v1, ptr_add (begin_ v1) (N.of_nat (length l1))) s1).
  { simpl. destruct (N.lt_ge_cases (size_ v) (capacity_ v)) as [Hlt|Hge].
    - pose proof (Insert_room ByCopy s v l1 l2 junk x Hr Hlt) as E1.
      pose proof (Insert_room ByMove s v l1 l2 junk x Hr Hlt) as E2.
      simpl in E1, E2, Hc. rewrite E1 in Hc. by rewrite E2, Hc.
    - destruct Hok as [?|Hmax]; [lia|].
      pose proof (Insert_full ByCopy s v l1 l2 junk x Hr Hge Hmax) as E1.
      pose proof (Insert_full ByMove s v l1 l2 junk x Hr Hge Hmax) as E2.
      simpl in E1, E2, Hc. rewrite E1 in Hc. by rewrite E2, Hc. }
  simpl in Hc, Hsame.
  destruct (Erase_step s1 v1 l1 x l2 junk1 Hr1) as (s' & c & He & Hr' & _).
  simpl in He.
  eexists _, _, s', _.
  split; [by rewrite (bind_Ok _ _ _ _ _ Hc)|].
  split; [by rewrite (bind_Ok _ _ _ _ _ Hsame)|].
  split; [exact Hr'|]. split; [|done].
  destruct Hr' as (_ & -> & _). revert Hs; len.
Qed.

(** *** Resize down and up again *)

Lemma repr_shrink s v l junk (m : N) :
  repr s v l junk → (m ≤ size_ v)%N →
  repr s (mkSimpleVector (items_ v) m (capacity_ v))
       (take (N.to_nat m) l) ((Some <$> drop (N.to_nat m) l) ++ junk).
Proof.
  intros (Hb & Hs & Hc & Hmax) Hm.
  repeat split; simpl; [| |revert Hc; len|done].
  - rewrite Hb. f_equal. rewrite (assoc_L (++)), <- fmap_app.
    by rewrite take_drop.
  - rewrite length_take. lia.
Qed.

Lemma Resize_fill_repr s v l junk (n : N) :
  repr s v l junk → (size_ v < n ≤ capacity_ v)%N →
  repr (write_block (items_ v)
          ((Some <$> l ++ replicate (N.to_nat n - length l) dflt)
           ++ drop (N.to_nat n - length l) junk) s)
       (mkSimpleVector (items_ v) n (capacity_ v))
       (l ++ replicate (N.to_nat n - length l) dflt)
       (drop (N.to_nat n - length l) junk).
Proof.
  intros Hr Hn.
  destruct (repr_cases _ _ _ _ Hr) as [(-> & -> & ->)|(b0 & -> & Hb & Hcap)];
    simpl in *; [lia|].
  apply repr_write_block; [len| |done].
  rewrite length_drop. revert Hn; len.
Qed.

(** X6: [Resize(m)] below the size followed by [Resize(n)] within the
    capacity keeps the first [m] elements and value-initialises the
    slots [m, n): the elements that were cut off do not come back.
    Nothing is allocated and the handle and capacity are unchanged. *)
Theorem Resize_shrink_then_grow s v l junk (m n : N) :
  repr s v l junk →
  (m ≤ size_ v)%N → (m < n ≤ capacity_ v)%N →
  ∃ s' junk',
    (v1 ← Resize v m; Resize v1 n) s
    = Ok (mkSimpleVector (items_ v) n (capacity_ v)) s'
    ∧ repr s' (mkSimpleVector (items_ v) n (capacity_ v))
        (take (N.to_nat m) l ++ replicate (N.to_nat n - N.to_nat m) dflt) junk'
    ∧ trace s' = trace s.
Proof.
  intros Hr Hm Hn. pose proof Hr as (_ & Hs & _).
  pose proof (repr_shrink _ _ _ _ m Hr Hm) as Hr1.
  assert (Hn1 : (size_ (mkSimpleVector (items_ v) m (capacity_ v)) < n
                 ≤ capacity_ (mkSimpleVector (items_ v) m (capacity_ v)))%N)
    by done.
  pose proof (Resize_fill _ _ _ _ n Hr1 Hn1) as Hrun.
  pose proof (Resize_fill_repr _ _ _ _ n Hr1 Hn1) as Hr2.
  simpl in Hrun, Hr2.
  assert (Hlen : length (take (N.to_nat m) l) = N.to_nat m)
    by (rewrite length_take; lia).
  rewrite Hlen in Hrun, Hr2.
  eexists _, _. rewrite (bind_Ok _ _ _ _ _ (Resize_shrink s v m Hm)).
  split; [exact Hrun|]. split; [exact Hr2|].
  apply (trace_write_block (items_ v)).
Qed.

(** *** Constructors *)

Lemma SimpleVector_filled_zero s (x : T) :
  SimpleVector_filled 0 x s = Ok SimpleVector_default s.
Proof.
  unfold SimpleVector_filled, ArrayPtr_new; simpl.
  rewrite bind_eq; simpl.
  change (end_ _) with nullptr. change (begin_ _) with nullptr.
  by rewrite (bind_Ok _ _ _ _ _ (std_fill_empty _ _ _)).
Qed.

Lemma SimpleVector_filled_spec s (n : N) (x : T) :
  (0 < n ≤ max_alloc)%N →
  SimpleVector_filled n x s
  = Ok (mkSimpleVector (mkArrayPtr (Ptr (Some (fresh (dom (heap s)))) 0)) n n)
       (realloc_state nullptr n (replicate (N.to_nat n) (Some x)) s).
Proof.
  intros Hn. unfold SimpleVector_filled.
  rewrite (bind_Ok _ _ _ _ _ (ArrayPtr_new_spec _ _ Hn)).
  unfold begin_, end_; simpl.
  erewrite bind_Ok;
    [|eapply (std_fill_spec _ _ _ [] (replicate (N.to_nat n) None) []);
      [ rewrite lookup_alloc_state_fresh; simpl; by rewrite app_nil_r
      | done | len ] ].
  simpl. by rewrite upd_alloc_state, length_replicate, app_nil_r.
Qed.

Lemma repr_default s : repr s SimpleVector_default [] [].
Proof. repeat split. pose proof max_alloc_lt. simpl. lia. Qed.

(** X7: [SimpleVector(size, value)] builds [size] copies of [value] in
    a block of exactly [size] slots ([size == capacity]), touching no
    other block; for [size == 0] it allocates nothing; when the block
    cannot be allocated it throws [bad_alloc] and leaves the heap as it
    was.  [SimpleVector(size)] is the same with the value [Type{}]. *)
Theorem SimpleVector_filled_ctor s (n : N) (x : T) :
  ((n ≤ max_alloc)%N →
     ∃ v s',
       SimpleVector_filled n x s = Ok v s'
       ∧ repr s' v (replicate (N.to_nat n) x) []
       ∧ size_ v = n ∧ capacity_ v = n
       ∧ heap_without (items_ v) s' = heap s
       ∧ (n = 0%N → s' = s))
  ∧ ((max_alloc < n)%N → SimpleVector_filled n x s = Throw bad_alloc s)
  ∧ SimpleVector_sized n s = SimpleVector_filled n dflt s.
Proof.
  split; [|split; [|done]].
  - intros Hn. destruct (N.eq_dec n 0%N) as [->|Hpos].
    + exists SimpleVector_default, s.
      split; [apply SimpleVector_filled_zero|].
      split; [apply repr_default|]. done.
    + eexists _, _.
      split; [apply SimpleVector_filled_spec; lia|].
      split; [|split; [done|split; [done|split; [|done]]]].
      * rewrite <- fmap_replicate, <- (app_nil_r (Some <$> _)).
        apply repr_realloc; [len|len|done].
      * apply (heap_without_realloc nullptr).
  - intros Hn. unfold SimpleVector_filled.
    by rewrite bind_eq, ArrayPtr_new_fail.
Qed.

(** X8: the initializer-list constructor stores the listed elements in
    order in a block of exactly that many slots, touching no other
    block; the empty list allocates nothing. *)
Theorem SimpleVector_init_ctor s (init : list T) :
  (N.of_nat (length init) ≤ max_alloc)%N →
  ∃ v s',
    SimpleVector_init init s = Ok v s'
    ∧ repr s' v init []
    ∧ heap_without (items_ v) s' = heap s
    ∧ (init = [] → v = SimpleVector_default ∧ s' = s).
Proof.
  intros Hn. unfold SimpleVector_init. destruct init as [|x init].
  - exists SimpleVector_default, s. split; [done|].
    split; [apply repr_default|]. done.
  - assert (Hpos : (0 < N.of_nat (length (x :: init)) ≤ max_alloc)%N)
      by (simpl in *; lia).
    rewrite (bind_Ok _ _ _ _ _ (ArrayPtr_new_spec _ _ Hpos)).
    unfold begin_; simpl ArrayPtr_Get.
    erewrite bind_Ok;
      [|eapply (store_list_spec _ (x :: init) _ []
                  (replicate (length (x :: init)) None) []);
        [ rewrite lookup_alloc_state_fresh, Nat2N.id; simpl;
          by rewrite app_nil_r
        | len ] ].
    eexists _, _. split; [done|].
    rewrite upd_alloc_state.
    split; [|split; [|done]].
    + apply (repr_realloc s nullptr _ (x :: init) []); [done|len|simpl in *; lia].
    + apply (heap_without_realloc nullptr).
Qed.

(** X9: [SimpleVector(Reserve(n))] is an empty vector with capacity
    exactly [n]: [n] unused slots in a block of its own, or no block at
    all for [n == 0]; when the block cannot be allocated it throws
    [bad_alloc]. *)
Theorem SimpleVector_reserved_ctor s (n : N) :
  ((n ≤ max_alloc)%N →
     ∃ v s',
       SimpleVector_reserved (mkReserveProxyObj n) s = Ok v s'
       ∧ repr s' v [] (replicate (N.to_nat n) None)
       ∧ size_ v = 0%N ∧ capacity_ v = n
       ∧ heap_without (items_ v) s' = heap s)
  ∧ ((max_alloc < n)%N →
     SimpleVector_reserved (mkReserveProxyObj n) s = Throw bad_alloc s).
Proof.
  unfold SimpleVector_reserved, ReserveProxyObj_GetCapacity; simpl.
  split.
  - intros Hn. destruct (N.eq_dec n 0%N) as [->|Hpos].
    + exists SimpleVector_default, s. split; [by apply Reserve_keep|].
      split; [apply repr_default|]. done.
    + eexists _, _.
      split; [apply (Reserve_grow _ _ _ _ _ (repr_default s)); simpl; lia|].
      simpl. rewrite Nat.sub_0_r.
      split; [apply (repr_realloc _ _ _ []); [done|len|done]|].
      split; [done|]. split; [done|].
      apply (heap_without_realloc nullptr).
  - intros Hn. apply Reserve_fail; simpl; [|done].
    pose proof max_alloc_lt. lia.
Qed.

(** *** Copies, moves and swaps *)

Lemma copy_result_separate s other l junk :
  repr s other l junk → separate (copy_result s other l).1 other.
Proof.
  intros (Hb & _). unfold separate, copy_result.
  destruct other as [[[[b0|] [|o]]] sz cap]; unfold block_of in Hb;
    simpl in *; try done; [|by left].
  right. case_decide; simpl; [done|].
  intros [= E]. by apply (fresh_ne _ _ _ Hb).
Qed.

Lemma copy_result_frame s other l :
  heap_without (items_ (copy_result s other l).1) (copy_result s other l).2
  = heap s.
Proof.
  unfold copy_result. case_decide; [done|]. simpl.
  apply (heap_without_realloc nullptr).
Qed.

(** X10: the copy constructor makes an independent deep copy.  The copy
    holds the same elements in a block of its own with exactly
    [size_ other] slots, the original is untouched, and a later
    [PushBack] on the copy changes the copy only: the original still
    holds its elements in its block. *)
Theorem SimpleVector_copy_independent s other l junk (x : T) :
  repr s other l junk →
  ∃ v s1,
    SimpleVector_copy other s = Ok v s1
    ∧ repr s1 v l []
    ∧ repr s1 other l junk
    ∧ capacity_ v = size_ other
    ∧ separate v other
    ∧ heap_without (items_ v) s1 = heap s
    ∧ ((N.max (size_ other + 1) (size_ other * 2) ≤ max_alloc)%N →
       ∃ v' s' junk',
         PushBack v (Obj x) s1 = Ok v' s'
         ∧ repr s' v' (l ++ [x]) junk'
         ∧ repr s' other l junk).
Proof.
  intros Hr. pose proof Hr as (Hb & Hs & Hc & Hmax).
  pose proof (copy_result_repr s SimpleVector_default [] other l junk eq_refl Hr)
    as Hv.
  change (free_state _ ?s) with s in Hv.
  pose proof (copy_result_separate _ _ _ _ Hr) as Hsep.
  assert (Ho : repr (copy_result s other l).2 other l junk).
  { split; [|done]. by apply copy_result_block. }
  assert (Hcap : capacity_ (copy_result s other l).1 = size_ other).
  { destruct Hv as (_ & _ & -> & _). rewrite Hs. f_equal. simpl. lia. }
  exists (copy_result s other l).1, (copy_result s other l).2.
  split; [by eapply SimpleVector_copy_result|].
  split; [done|]. split; [done|]. split; [done|]. split; [done|].
  split; [apply copy_result_frame|].
  intros Hok.
  assert (Hsz : size_ (copy_result s other l).1 = size_ other).
  { destruct Hv as (_ & -> & _). by rewrite Hs. }
  destruct (PushBack_step _ _ _ _ x Hv)
    as (v' & s' & junk' & Hrun & Hr' & Hframe & _).
  { right. by rewrite Hsz, Hcap. }
  exists v', s', junk'. split; [done|]. split; [done|].
  eapply frame_repr; [exact Ho|exact Hframe|exact Hsep].
Qed.

(** X11: the move constructor hands the handle, the size and the
    capacity to the new object and leaves the source as a
    default-constructed vector.  Where the result of [std::exchange] is
    constructed in place, nothing is allocated, copied or released, and
    destroying both objects afterwards releases the block exactly once.
    Where it is not, the defaulted move of [ArrayPtr] leaves the handle
    in the local of [std::exchange] as well, and the destructor of that
    local releases the block inside the move constructor: if the source
    owned a block, the new object holds a handle to a released block,
    no contents satisfy the invariant for it, and destroying it is
    undefined behaviour. *)
Theorem SimpleVector_move_ctor s v l junk :
  repr s v l junk →
  (∃ s',
     SimpleVector_move true v s = Ok (v, SimpleVector_default) s
     ∧ repr s SimpleVector_default [] []
     ∧ (SimpleVector_dtor SimpleVector_default;; SimpleVector_dtor v) s
       = Ok tt s'
     ∧ heap s' = heap_without (items_ v) s)
  ∧ (let s' := free_state (raw_ptr_ (items_ v)) s in
     SimpleVector_move false v s = Ok (v, SimpleVector_default) s'
     ∧ heap s' = heap_without (items_ v) s
     ∧ (raw_ptr_ (items_ v) ≠ nullptr →
          block_of s' (items_ v) = None
          ∧ (∀ l' junk', ¬ repr s' v l' junk')
          ∧ SimpleVector_dtor v s' = UB)).
Proof.
  intros Hr. destruct (SimpleVector_dtor_spec _ _ _ _ Hr) as (Hd & Hh).
  split.
  - eexists. split; [by destruct v as [[p] sz cap]|].
    split; [apply repr_default|].
    split; [|exact Hh]. by rewrite bind_eq.
  - simpl. split; [|split; [exact Hh|]].
    + unfold SimpleVector_dtor in Hd.
      destruct v as [a sz cap]; simpl in *.
      unfold SimpleVector_move, exchange_ArrayPtr.
      rewrite ArrayPtr_move_ctor_source, ArrayPtr_move_assign_source,
        ArrayPtr_move_ctor_source.
      rewrite !bind_eq. simpl. by rewrite Hd.
    + intros Hnn.
      assert (Hnone : block_of (free_state (raw_ptr_ (items_ v)) s) (items_ v)
                      = None).
      { destruct Hr as (Hb & _). revert Hb Hnn.
        destruct v as [[[[b|] [|o]]] sz cap];
          unfold block_of, free_state, nullptr; simpl; try done.
        intros _ _. apply lookup_delete_eq. }
      split; [exact Hnone|]. split.
      * intros l' junk' (Hb & _). congruence.
      * revert Hnone Hnn. destruct Hr as (Hb & _). revert Hb.
        destruct v as [[[[b|] [|o]]] sz cap];
          unfold block_of, free_state, SimpleVector_dtor, ArrayPtr_dtor,
            delete_array, nullptr; simpl; try done.
        by intros _ ->.
Qed.

(** X12: [swap] exchanges the contents of two vectors without touching
    the heap: each ends up with the other's elements, spare slots, size
    and capacity, and swapping back restores both objects. *)
Theorem swap_spec s v w l junk lw jw :
  repr s v l junk → repr s w lw jw →
  repr s (swap v w).1 lw jw
  ∧ repr s (swap v w).2 l junk
  ∧ swap (swap v w).1 (swap v w).2 = (v, w).
Proof.
  destruct v as [[pv] sv cv], w as [[pw] sw cw]. by intros Hv Hw.
Qed.

(** *** Operations on one vector leave the others alone *)

Lemma frame_separate s s' a a' w l junk :
  repr s w l junk →
  heap_without a' s' = heap_without a s →
  ptr_block (raw_ptr_ (items_ w)) = None
  ∨ ptr_block (raw_ptr_ (items_ w)) ≠ ptr_block (raw_ptr_ a) →
  ptr_block (raw_ptr_ (items_ w)) = None
  ∨ ptr_block (raw_ptr_ (items_ w)) ≠ ptr_block (raw_ptr_ a').
Proof.
  intros (Hb & _) Hframe [Hnull|Hne]; [by left|].
  destruct w as [[[[bw|] [|o]]] sz cap]; unfold block_of in *; simpl in *;
    try done; [|by left].
  right. intros E.
  assert (Hw : heap_without a s !! bw = Some ((Some <$> l) ++ junk)).
  { unfold heap_without. destruct (ptr_block (raw_ptr_ a)) as [b|]; [|done].
    rewrite lookup_delete_ne; [done|congruence]. }
  rewrite <- Hframe in Hw. unfold heap_without in Hw. rewrite <- E in Hw.
  by rewrite lookup_delete_eq in Hw.
Qed.

Lemma Reserve_frame s v l junk (n : N) v' s' :
  repr s v l junk → Reserve v n s = Ok v' s' →
  heap_without (items_ v') s' = heap_without (items_ v) s.
Proof.
  intros Hr Hrun.
  destruct (N.le_gt_cases n (capacity_ v)) as [Hle|Hgt].
  - rewrite Reserve_keep in Hrun by done. by injection Hrun as <- <-.
  - destruct (N.le_gt_cases n max_alloc) as [Hok|Hbig].
    + rewrite (Reserve_grow _ _ _ _ _ Hr (conj Hgt Hok)) in Hrun.
      injection Hrun as <- <-. simpl.
      rewrite heap_without_realloc. by destruct (items_ v).
    + by rewrite Reserve_fail in Hrun.
Qed.

Lemma Resize_frame s v l junk (n : N) v' s' :
  repr s v l junk → Resize v n s = Ok v' s' →
  heap_without (items_ v') s' = heap_without (items_ v) s.
Proof.
  intros Hr Hrun. pose proof Hr as (_ & Hs & Hc & _).
  destruct (N.le_gt_cases n (size_ v)) as [Hle|Hgt].
  - rewrite Resize_shrink in Hrun by done. by injection Hrun as <- <-.
  - destruct (N.le_gt_cases n (capacity_ v)) as [Hfit|Hbig].
    + rewrite (Resize_fill _ _ _ _ _ Hr (conj Hgt Hfit)) in Hrun.
      injection Hrun as <- <-. simpl. apply heap_without_write.
    + destruct (N.le_gt_cases n max_alloc) as [Hok|Hfail].
      * rewrite (Resize_grow _ _ _ _ _ Hr (conj Hbig Hok)) in Hrun.
        injection Hrun as <- <-. simpl.
        rewrite heap_without_realloc. by destruct (items_ v).
      * rewrite Resize_fail in Hrun; [done|done|lia|done].
Qed.

(** X13: [Reserve] and [Resize] on one vector never touch another
    vector that does not share its block: whenever they return, every
    such vector still owns the same block with the same contents, and
    still shares nothing with the result. *)
Theorem Reserve_Resize_frame s v w l junk lw jw (n : N) :
  repr s v l junk → repr s w lw jw → separate v w →
  (∀ v' s', Reserve v n s = Ok v' s' → repr s' w lw jw ∧ separate v' w)
  ∧ (∀ v' s', Resize v n s = Ok v' s' → repr s' w lw jw ∧ separate v' w).
Proof.
  intros Hv Hw Hsep. split; intros v' s' Hrun.
  - pose proof (Reserve_frame _ _ _ _ _ _ _ Hv Hrun) as Hframe.
    split; [by eapply frame_repr|by eapply frame_separate].
  - pose proof (Resize_frame _ _ _ _ _ _ _ Hv Hrun) as Hframe.
    split; [by eapply frame_repr|by eapply frame_separate].
Qed.

(** X14: [Insert] (either overload) and [Erase] on one vector never
    touch another vector that does not share its block, also when
    [Insert] reallocates. *)
Theorem Insert_Erase_frame s v w l1 l2 junk lw jw (x : T) :
  repr s v (l1 ++ l2) junk → repr s w lw jw → separate v w →
  let pos := ptr_add (begin_ v) (N.of_nat (length l1)) in
  (((size_ v < capacity_ v)%N
    ∨ (N.max (size_ v + 1) (capacity_ v * 2) ≤ max_alloc)%N) →
   ∃ v' it s',
     Insert v pos (Obj x) s = Ok (v', it) s'
     ∧ Insert_rv v pos (Obj x) s = Ok (v', it) s'
     ∧ repr s' w lw jw ∧ separate v' w)
  ∧ (l2 ≠ [] →
     ∃ v' it s',
       Erase v pos s = Ok (v', it) s'
       ∧ repr s' w lw jw ∧ separate v' w).
Proof.
  intros Hv Hw Hsep pos. subst pos. split.
  - intros Hok.
    destruct (Insert_step ByCopy s v l1 l2 junk x Hv Hok)
      as (v1 & s1 & junk1 & Hc & Hr1 & Hframe & _).
    assert (Hm : Insert_rv v (ptr_add (begin_ v) (N.of_nat (length l1))) (Obj x) s
                 = Ok (v1, ptr_add (begin_ v1) (N.of_nat (length l1))) s1).
    { simpl in Hc.
      destruct (N.lt_ge_cases (size_ v) (capacity_ v)) as [Hlt|Hge].
      - pose proof (Insert_room ByCopy s v l1 l2 junk x Hv Hlt) as E1.
        pose proof (Insert_room ByMove s v l1 l2 junk x Hv Hlt) as E2.
        simpl in E1, E2. rewrite E1 in Hc. by rewrite E2, Hc.
      - destruct Hok as [?|Hmax]; [lia|].
        pose proof (Insert_full ByCopy s v l1 l2 junk x Hv Hge Hmax) as E1.
        pose proof (Insert_full ByMove s v l1 l2 junk x Hv Hge Hmax) as E2.
        simpl in E1, E2. rewrite E1 in Hc. by rewrite E2, Hc. }
    eexists _, _, _. split; [exact Hc|]. split; [exact Hm|].
    split; [by eapply frame_repr|by eapply frame_separate].
  - intros Hne. destruct l2 as [|y l2]; [done|].
    destruct (Erase_step s v l1 y l2 junk Hv) as (s' & c & He & _ & Hframe & _).
    eexists _, _, _. split; [exact He|].
    split; [by eapply frame_repr|].
    by eapply (frame_separate s s' (items_ v) (items_ v)).
Qed.

(** *** Element access and iteration *)

(** X15: writing through the reference [v[i]] for [i < size] replaces
    element [i] and nothing else, and [At(i)] then reads the written
    value; beyond the block ([i >= capacity]) the unchecked reference
    can be neither read nor written (undefined behaviour), where [At]
    throws. *)
Theorem subscript_store s v l junk (i : N) (x : T) :
  repr s v l junk →
  ((i < size_ v)%N →
     ∃ s',
       store (subscript v i) x s = Ok tt s'
       ∧ repr s' v (<[N.to_nat i := x]> l) junk
       ∧ (p ← At v i; load p) s' = Ok x s'
       ∧ trace s' = trace s)
  ∧ ((capacity_ v ≤ i)%N →
       load (subscript v i) s = UB
       ∧ store (subscript v i) x s = UB
       ∧ At v i s = Throw out_of_range s).
Proof.
  intros Hr. pose proof Hr as (_ & Hs & Hc & _). split.
  - intros Hi.
    destruct (repr_cases _ _ _ _ Hr) as [(-> & -> & ->)|(b0 & -> & Hb & Hcap)];
      simpl in *; [lia|].
    unfold subscript, ArrayPtr_index, ptr_add; simpl.
    assert (Hr' : repr (upd_block b0
                          ((Some <$> <[N.to_nat i := x]> l) ++ junk) s)
                    (mkSimpleVector (mkArrayPtr (Ptr (Some b0) 0))
                       (N.of_nat (length l)) (N.of_nat (length l + length junk)))
                    (<[N.to_nat i := x]> l) junk).
    { apply repr_block; [apply lookup_upd_block| | |done];
        by rewrite length_insert. }
    eexists. split; [|split; [exact Hr'|split; [|done]]].
    + erewrite store_spec; [|done|len].
      do 2 f_equal. rewrite insert_app_l by len.
      by rewrite list_fmap_insert.
    + erewrite bind_Ok; [|apply At_inside; exact Hi].
      eapply subscript_load; [exact Hr'|].
      apply list_lookup_insert_eq. lia.
  - intros Hi. split; [|split; [|apply At_outside; lia]].
    + destruct (repr_cases _ _ _ _ Hr) as [(-> & -> & ->)|(b0 & -> & Hb & Hcap)];
        [done|].
      unfold subscript, ArrayPtr_index, ptr_add, load; simpl. rewrite Hb.
      rewrite lookup_ge_None_2; [done|]. revert Hi; len.
    + destruct (repr_cases _ _ _ _ Hr) as [(-> & -> & ->)|(b0 & -> & Hb & Hcap)];
        [done|].
      unfold subscript, ArrayPtr_index, ptr_add, store; simpl. rewrite Hb.
      rewrite decide_False; [done|]. revert Hi; len.
Qed.

(** X16: [begin()] and [end()] delimit exactly the elements:
    [end() - begin()] is the size, the two are equal exactly when the
    vector is empty, and the slot [begin() + i] holds element [i] for
    every [i < size]. *)
Theorem begin_end_range s v l junk :
  repr s v l junk →
  std_distance (begin_ v) (end_ v) s = Ok (Z.of_N (size_ v)) s
  ∧ (begin_ v = end_ v ↔ IsEmpty v = true)
  ∧ ∀ i x, l !! i = Some x →
      load (ptr_add (begin_ v) (N.of_nat i)) s = Ok x s.
Proof.
  intros Hr. pose proof Hr as (_ & Hs & _).
  split; [|split].
  - unfold end_, begin_. destruct (ArrayPtr_Get (items_ v)) as [bo o].
    rewrite Hs, ptr_add_of_nat, std_distance_spec. f_equal. lia.
  - unfold IsEmpty, end_, begin_.
    destruct (ArrayPtr_Get (items_ v)) as [bo o].
    rewrite Hs, ptr_add_of_nat.
    destruct (N.eqb_spec (N.of_nat (length l)) 0) as [E|E].
    + split; [done|]. intros _. f_equal. lia.
    + split; [|done]. intros [= E']. lia.
  - intros i x Hi. pose proof (repr_reads _ _ _ _ Hr i x Hi) as Hl.
    unfold ptr_add. by rewrite Nat2N.id.
Qed.

(** *** The relational operators on lawful elements *)

Lemma elements_equal_refl l :
  (∀ a : T, elt_eqb a a = true) → elements_equal l l = true.
Proof. intros Hrefl. induction l; simpl; [done|]. by rewrite Hrefl. Qed.

Lemma lex_trichotomy l1 :
  (∀ a c : T, elt_eqb a c = negb (elt_ltb a c || elt_ltb c a)) →
  (∀ a c : T, elt_ltb a c = true → elt_ltb c a = false) →
  ∀ l2,
  (elements_equal l1 l2, lex_less l1 l2, lex_less l2 l1)
  ∈ [(true, false, false); (false, true, false); (false, false, true)].
Proof.
  intros Heq Hasym. induction l1 as [|a l1 IH]; intros [|c l2]; simpl.
  - set_solver.
  - set_solver.
  - set_solver.
  - rewrite Heq. destruct (elt_ltb a c) eqn:E1.
    + rewrite (Hasym _ _ E1). simpl. set_solver.
    + destruct (elt_ltb c a) eqn:E2; simpl; [set_solver|apply IH].
Qed.

(** X17: when the element type's [==] holds exactly between elements
    that are not ordered by [<], and [<] is asymmetric, exactly one of
    [a == b], [a < b] and [a > b] holds for two vectors, and [a <= b]
    holds exactly when [a < b] or [a == b]. *)
Theorem relational_trichotomy s lhs rhs l1 j1 l2 j2 :
  (∀ a c : T, elt_eqb a c = negb (elt_ltb a c || elt_ltb c a)) →
  (∀ a c : T, elt_ltb a c = true → elt_ltb c a = false) →
  repr s lhs l1 j1 → repr s rhs l2 j2 →
  ∃ eq lt gt : bool,
    vec_eq lhs rhs s = Ok eq s
    ∧ vec_lt lhs rhs s = Ok lt s
    ∧ vec_gt lhs rhs s = Ok gt s
    ∧ (eq, lt, gt)
      ∈ [(true, false, false); (false, true, false); (false, false, true)]
    ∧ vec_le lhs rhs s = Ok (lt || eq) s.
Proof.
  intros Heq Hasym H1 H2.
  pose proof (lex_trichotomy l1 Heq Hasym l2) as Htri.
  exists (elements_equal l1 l2), (lex_less l1 l2), (lex_less l2 l1).
  split; [by eapply vec_eq_spec|]. split; [by eapply vec_lt_spec|].
  split; [by eapply vec_lt_spec|]. split; [done|].
  unfold vec_le. rewrite (bind_Ok _ _ _ _ _ (vec_lt_spec _ _ _ _ _ _ _ H2 H1)).
  unfold mret, M_ret, ret. f_equal. revert Htri.
  generalize (elements_equal l1 l2), (lex_less l1 l2), (lex_less l2 l1).
  intros [] [] [] Htri; simpl; try done; exfalso;
    repeat (apply elem_of_cons in Htri as [[=]|Htri]); by inversion Htri.
Qed.

(** *** Assignment *)

(** X18: self-assignment is safe.  [v = v] always returns a vector
    that holds the same elements; when every element equals itself it
    changes nothing at all. *)
Theorem self_assignment s v l junk :
  repr s v l junk →
  (∃ v' s' junk', copy_assign v v s = Ok v' s' ∧ repr s' v' l junk')
  ∧ ((∀ a : T, elt_eqb a a = true) → copy_assign v v s = Ok v s).
Proof.
  intros Hr. split.
  - destruct (elements_equal l l) eqn:E.
    + destruct (assign_equal _ _ _ _ _ _ _ Hr Hr E) as [Hc _].
      by exists v, s, junk.
    + destruct (assign_differ _ _ _ _ _ _ _ Hr Hr E) as [Hc _].
      eexists _, _, []. split; [exact Hc|].
      destruct Hr as (Hb & Hrest).
      eapply copy_result_repr; [exact Hb|]. by split.
  - intros Hrefl.
    by destruct (assign_equal _ _ _ _ _ _ _ Hr Hr (elements_equal_refl l Hrefl)).
Qed.

(** X19: after [a = b] between two vectors that do not share a block,
    for an element type whose [==] is reflexive, [a == b] is true and
    [b] still owns its block with its elements. *)
Theorem copy_assign_post s this rhs l1 j1 l2 j2 :
  (∀ a : T, elt_eqb a a = true) →
  repr s this l1 j1 → repr s rhs l2 j2 → separate this rhs →
  ∃ this' s',
    copy_assign this rhs s = Ok this' s'
    ∧ vec_eq this' rhs s' = Ok true s'
    ∧ size_ this' = size_ rhs
    ∧ repr s' rhs l2 j2.
Proof.
  intros Hrefl H1 H2 Hsep.
  destruct (elements_equal l1 l2) eqn:E.
  - destruct (assign_equal _ _ _ _ _ _ _ H1 H2 E) as [Hc _].
    exists this, s. split; [done|].
    split; [by rewrite (vec_eq_spec _ _ _ _ _ _ _ H1 H2), E|].
    split; [|done].
    apply elements_equal_length in E.
    destruct H1 as (_ & -> & _), H2 as (_ & -> & _). by rewrite E.
  - destruct (assign_differ _ _ _ _ _ _ _ H1 H2 E) as [Hc _].
    pose proof H1 as (Hb1 & _).
    pose proof (copy_result_repr s this _ rhs l2 j2 Hb1 H2) as Hr'.
    assert (Hrhs : repr (free_state (raw_ptr_ (items_ this))
                           (copy_result s rhs l2).2) rhs l2 j2).
    { destruct H2 as (Hb2 & Hrest). split; [|done].
      pose proof (copy_result_block s rhs l2 _ _ Hb2) as Hb2'.
      destruct rhs as [[[[b2|] [|o]]] sz cap]; unfold block_of in *;
        simpl in *; try done.
      unfold free_state.
      destruct (ptr_block (raw_ptr_ (items_ this))) as [b1|] eqn:Eb; [|done].
      simpl. rewrite lookup_delete_ne; [done|].
      destruct Hsep as [?|Hne]; [done|]. simpl in Hne. congruence. }
    eexists _, _. split; [exact Hc|].
    split; [|split; [|exact Hrhs]].
    + by rewrite (vec_eq_spec _ _ _ _ _ _ _ Hr' Hrhs), elements_equal_refl.
    + by destruct Hr' as (_ & -> & _), H2 as (_ & -> & _).
Qed.

(** *** ArrayPtr *)

(** X20: the life of an [ArrayPtr].  [ArrayPtr(n)] owns a fresh block of
    [n] slots, or nothing for [n == 0], and converts to [true] exactly
    when [n != 0]; destroying it gives back the heap it was built in.
    After [Release()] the object is null, its destructor releases
    nothing, and the returned handle still denotes the block. *)
Theorem ArrayPtr_lifetime s (n : N) :
  (n ≤ max_alloc)%N →
  ∃ a s1 s2,
    ArrayPtr_new n s = Ok a s1
    ∧ block_of s1 a = Some (replicate (N.to_nat n) None)
    ∧ ArrayPtr_bool a = negb (n =? 0)%N
    ∧ ArrayPtr_dtor a s1 = Ok tt s2
    ∧ heap s2 = heap s
    ∧ ArrayPtr_bool (ArrayPtr_Release a).2 = false
    ∧ ArrayPtr_dtor (ArrayPtr_Release a).2 s1 = Ok tt s1
    ∧ ArrayPtr_from_raw (ArrayPtr_Release a).1 = a.
Proof.
  intros Hn. destruct (N.eq_dec n 0%N) as [->|Hpos].
  - exists (mkArrayPtr nullptr), s, s. by repeat split.
  - assert (Hrange : (0 < n ≤ max_alloc)%N) by lia.
    eexists _, _, _. split; [by apply ArrayPtr_new_spec|].
    assert (Hblk : block_of (alloc_state n s)
                     (mkArrayPtr (Ptr (Some (fresh (dom (heap s)))) 0))
                   = Some (replicate (N.to_nat n) None))
      by apply lookup_alloc_state_fresh.
    split; [exact Hblk|].
    split; [by destruct (N.eqb_spec n 0)|].
    split; [by eapply delete_array_spec|].
    split; [|done].
    unfold free_state, alloc_state; simpl.
    apply map_eq. intros i. pose proof (fresh_block_None s).
    rewrite lookup_delete, lookup_insert. repeat case_decide; congruence.
Qed.

(** *** Allocation failure *)

Lemma Insert_fail m s v l1 l2 junk (x : T) :
  repr s v (l1 ++ l2) junk → (capacity_ v ≤ size_ v)%N →
  (max_alloc < N.max (size_ v + 1) (capacity_ v * 2))%N →
  Insert_by m v (ptr_add (begin_ v) (N.of_nat (length l1))) (Obj x) s
  = Throw bad_alloc s.
Proof.
  intros Hr Hge Hbig. pose proof max_alloc_lt as HM.
  assert (Hsz : size_add (size_ v) 1 = (size_ v + 1)%N).
  { apply size_add_small. destruct Hr as (_ & Hs & Hc & Hmax). lia. }
  assert (Hmul : size_mul (capacity_ v) 2 = (capacity_ v * 2)%N).
  { apply size_mul_small. destruct Hr as (_ & _ & _ & Hc). lia. }
  destruct (repr_cases _ _ _ _ Hr) as [(-> & Hl & ->)|(b0 & -> & Hb & Hcap)];
    simpl in *.
  { unfold max_alloc in Hbig. lia. }
  destruct junk as [|c junk]; simpl in *; [|lia].
  unfold begin_; simpl. rewrite ptr_add_of_nat.
  destruct (std_distance_index s (Some b0) (length l1)) as [Hd Hi];
    [revert Hcap; len|].
  destruct m; simpl; unfold Insert, Insert_rv, begin_; simpl;
    rewrite (bind_Ok _ _ _ _ _ Hd); simpl;
    (destruct (N.ltb_spec (N.of_nat (length (l1 ++ l2)))
               (N.of_nat (length (l1 ++ l2) + 0))); [lia|]);
    rewrite Hsz, Hmul; by rewrite bind_eq, ArrayPtr_new_fail.
Qed.

(** X22: when the block a growth needs cannot be allocated, [Insert]
    (both overloads), [PushBack] and [Resize] throw [bad_alloc] before
    anything is written: the heap is the one before the call. *)
Theorem growth_failure s v l1 l2 junk (x : T) :
  repr s v (l1 ++ l2) junk →
  ((size_ v = capacity_ v)%N →
   (max_alloc < N.max (size_ v + 1) (capacity_ v * 2))%N →
   let pos := ptr_add (begin_ v) (N.of_nat (length l1)) in
   Insert v pos (Obj x) s = Throw bad_alloc s
   ∧ Insert_rv v pos (Obj x) s = Throw bad_alloc s
   ∧ PushBack v (Obj x) s = Throw bad_alloc s)
  ∧ (∀ n : N, (max_alloc < n)%N → Resize v n s = Throw bad_alloc s).
Proof.
  intros Hr. pose proof Hr as (_ & Hs & Hc & Hmax). split.
  - intros Hfull Hbig pos. subst pos.
    assert (Hge : (capacity_ v ≤ size_ v)%N) by lia.
    split; [exact (Insert_fail ByCopy _ _ _ _ _ x Hr Hge Hbig)|].
    split; [exact (Insert_fail ByMove _ _ _ _ _ x Hr Hge Hbig)|].
    assert (Hend : end_ v
                   = ptr_add (begin_ v) (N.of_nat (length (l1 ++ l2)))).
    { unfold end_, begin_. by rewrite Hs. }
    assert (Hr0 : repr s v ((l1 ++ l2) ++ []) junk) by (by rewrite app_nil_r).
    pose proof (Insert_fail ByCopy s v (l1 ++ l2) [] junk x Hr0 Hge Hbig) as Hf.
    simpl in Hf. unfold PushBack. by rewrite Hend, bind_eq, Hf.
  - intros n Hn. apply Resize_fail; lia.
Qed.

(** *** PopBack *)

(** X23: [PopBack] removes the last element and nothing else, keeping
    the handle and the capacity; on an empty vector it does nothing (the
    size does not wrap around). *)
Theorem PopBack_spec s v l junk :
  repr s v l junk →
  (l = [] → PopBack v = v)
  ∧ (∀ l' x, l = l' ++ [x] →
       repr s (PopBack v) l' (Some x :: junk)
       ∧ size_ (PopBack v) = (size_ v - 1)%N
       ∧ capacity_ (PopBack v) = capacity_ v
       ∧ items_ (PopBack v) = items_ v).
Proof.
  intros Hr. pose proof Hr as (_ & Hs & Hc & Hmax). split.
  - intros ->. unfold PopBack, IsEmpty. by rewrite Hs.
  - intros l' x ->. pose proof (PopBack_repr _ _ _ _ Hr) as Hpop.
    rewrite length_app in Hpop. simpl in Hpop.
    replace (length l' + 1 - 1) with (length l') in Hpop by lia.
    rewrite take_app_length, drop_app_length in Hpop.
    split; [exact Hpop|].
    split; [destruct Hpop as (_ & -> & _); revert Hs; len|].
    unfold PopBack. by destruct (negb (IsEmpty v)).
Qed.

(** *** Clear *)

(** X21: [Clear] keeps the storage: after it the vector is empty with
    the same handle and capacity, and pushing up to [capacity] elements
    allocates nothing and leaves exactly those elements. *)
Theorem Clear_then_PushBack s v l junk (xs : list T) :
  repr s v l junk →
  (N.of_nat (length xs) ≤ capacity_ v)%N →
  ∃ s' junk',
    IsEmpty (Clear v) = true
    ∧ PushBack_all (Clear v) xs s
      = Ok (mkSimpleVector (items_ v) (N.of_nat (length xs)) (capacity_ v)) s'
    ∧ repr s' (mkSimpleVector (items_ v) (N.of_nat (length xs)) (capacity_ v))
        xs junk'
    ∧ trace s' = trace s.
Proof.
  intros Hr Hlen. pose proof Hr as (_ & Hs & Hc & _).
  pose proof (Clear_repr _ _ _ _ Hr) as Hr0.
  destruct (PushBack_all_within _ _ _ _ xs Hr0) as (s' & Hrun & Hr' & Ht);
    [revert Hlen; len|].
  simpl in Hrun, Hr'. eexists s', _. split; [done|]. done.
Qed.

End Further.

(** ** The further properties at concrete arrays *)

Lemma Z_eq_lawful (a c : Z) :
  elt_eqb a c = negb (elt_ltb a c || elt_ltb c a).
Proof.
  simpl. destruct (Z.eqb_spec a c), (Z.ltb_spec a c), (Z.ltb_spec c a);
    simpl; lia.
Qed.

Lemma Z_lt_asym (a c : Z) : elt_ltb a c = true → elt_ltb c a = false.
Proof. simpl. destruct (Z.ltb_spec a c), (Z.ltb_spec c a); simpl; lia. Qed.

Lemma Z_eq_refl (a : Z) : elt_eqb a a = true.
Proof. apply Z.eqb_refl. Qed.

Lemma separate_123_12 : separate vec_123 vec_12.
Proof. right. simpl. congruence. Qed.

Lemma separate_123_13 : separate vec_123 vec_13.
Proof. right. simpl. congruence. Qed.

Lemma PushBack_all_spec_witness :
  repr demo_state vec_123 [1; 2; 3]%Z []
  ∧ ∃ v' s' junk',
      PushBack_all vec_123 [4; 5]%Z demo_state = Ok v' s'
      ∧ repr s' v' [1; 2; 3; 4; 5]%Z junk'
      ∧ size_ v' = 5%N.
Proof.
  split; [apply repr_123|].
  destruct (PushBack_all_spec demo_state vec_123 _ _ [4; 5]%Z repr_123)
    as (v' & s' & junk' & Hrun & Hr & Hs & _).
  { vm_compute. congruence. }
  exists v', s', junk'. split; [exact Hrun|]. split; [exact Hr|exact Hs].
Defined.

Lemma PushBack_all_from_empty_witness :
  ∃ v' s' junk' g,
    PushBack_all SimpleVector_default [1; 2; 3; 4; 5]%Z heap0 = Ok v' s'
    ∧ repr s' v' [1; 2; 3; 4; 5]%Z junk'
    ∧ capacity_ v' = (2 ^ N.of_nat g)%N
    ∧ (5 ≤ capacity_ v' < 10)%N.
Proof.
  destruct (PushBack_all_from_empty heap0 [1; 2; 3; 4; 5]%Z)
    as (v' & s' & junk' & g & Hrun & Hr & _ & _ & Hcap & Hbound & _).
  { discriminate. }
  { vm_compute. congruence. }
  exists v', s', junk', g.
  split; [exact Hrun|]. split; [exact Hr|]. split; [exact Hcap|exact Hbound].
Defined.

Lemma Reserve_then_PushBack_witness :
  repr demo_state vec_123 [1; 2; 3]%Z []
  ∧ ∃ v1 s1 s' junk',
      Reserve vec_123 10 demo_state = Ok v1 s1
      ∧ PushBack_all v1 [4; 5]%Z s1
        = Ok (mkSimpleVector (items_ v1) 5 (capacity_ v1)) s'
      ∧ repr s' (mkSimpleVector (items_ v1) 5 (capacity_ v1))
          [1; 2; 3; 4; 5]%Z junk'
      ∧ trace s' = trace s1.
Proof.
  split; [apply repr_123|].
  destruct (Reserve_then_PushBack demo_state vec_123 _ _ 10 [4; 5]%Z repr_123)
    as (v1 & s1 & s' & junk' & Hres & _ & Hrun & Hr & Ht).
  { vm_compute. congruence. }
  { vm_compute. congruence. }
  exists v1, s1, s', junk'.
  split; [exact Hres|]. split; [exact Hrun|]. split; [exact Hr|exact Ht].
Defined.

Lemma PushBack_PopBack_witness :
  repr demo_state vec_123 [1; 2; 3]%Z []
  ∧ ∃ v1 s' junk',
      PushBack vec_123 (Obj 4%Z) demo_state = Ok v1 s'
      ∧ repr s' (PopBack v1) [1; 2; 3]%Z junk'
      ∧ size_ (PopBack v1) = 3%N.
Proof.
  split; [apply repr_123|].
  destruct (PushBack_PopBack demo_state vec_123 _ _ 4%Z repr_123)
    as (v1 & s' & junk' & Hrun & Hr & Hs & _).
  { right. vm_compute. congruence. }
  exists v1, s', junk'. split; [exact Hrun|]. split; [exact Hr|exact Hs].
Defined.

Lemma Insert_Erase_witness :
  repr demo_state vec_123_spare ([1] ++ [2; 3])%Z [None]
  ∧ ∃ v' it s' junk',
      ('(v1, it1) ← Insert vec_123_spare (ptr_add (begin_ vec_123_spare) 1)
                      (Obj 9%Z);
       Erase v1 it1) demo_state = Ok (v', it) s'
      ∧ repr s' v' [1; 2; 3]%Z junk'.
Proof.
  split; [apply repr_123_spare|].
  destruct (Insert_Erase demo_state vec_123_spare [1]%Z [2; 3]%Z _ 9%Z
              repr_123_spare)
    as (v' & it & s' & junk' & Hrun & _ & Hr & _).
  { left. vm_compute. congruence. }
  exists v', it, s', junk'. split; [exact Hrun|exact Hr].
Defined.

Lemma Resize_shrink_then_grow_witness :
  repr demo_state vec_123_spare [1; 2; 3]%Z [None]
  ∧ ∃ s' junk',
      (v1 ← Resize vec_123_spare 1; Resize v1 4) demo_state
      = Ok (vec_at 1 4 4) s'
      ∧ repr s' (vec_at 1 4 4) [1; 0; 0; 0]%Z junk'.
Proof.
  split; [apply repr_123_spare|].
  destruct (Resize_shrink_then_grow demo_state vec_123_spare _ _ 1 4
              repr_123_spare)
    as (s' & junk' & Hrun & Hr & _).
  { vm_compute. congruence. }
  { vm_compute. split; congruence. }
  exists s', junk'. split; [exact Hrun|exact Hr].
Defined.

Lemma SimpleVector_filled_ctor_witness :
  ∃ v s',
    SimpleVector_filled 3 7%Z heap0 = Ok v s'
    ∧ repr s' v [7; 7; 7]%Z []
    ∧ capacity_ v = 3%N.
Proof.
  destruct (SimpleVector_filled_ctor heap0 3 7%Z) as (Hok & _).
  destruct Hok as (v & s' & Hrun & Hr & _ & Hcap & _);
    [vm_compute; congruence|].
  exists v, s'. split; [exact Hrun|]. split; [exact Hr|exact Hcap].
Defined.

Lemma SimpleVector_init_ctor_witness :
  ∃ v s', SimpleVector_init [1; 2]%Z heap0 = Ok v s' ∧ repr s' v [1; 2]%Z [].
Proof.
  destruct (SimpleVector_init_ctor heap0 [1; 2]%Z)
    as (v & s' & Hrun & Hr & _); [vm_compute; congruence|].
  exists v, s'. split; [exact Hrun|exact Hr].
Defined.

Lemma SimpleVector_reserved_ctor_witness :
  ∃ v (s' : state Z),
    SimpleVector_reserved (mkReserveProxyObj 4) heap0 = Ok v s'
    ∧ size_ v = 0%N ∧ capacity_ v = 4%N.
Proof.
  destruct (SimpleVector_reserved_ctor heap0 4) as (Hok & _).
  destruct Hok as (v & s' & Hrun & _ & Hs & Hc & _); [vm_compute; congruence|].
  exists v, s'. split; [exact Hrun|]. split; [exact Hs|exact Hc].
Defined.

Lemma SimpleVector_copy_independent_witness :
  repr demo_state vec_123 [1; 2; 3]%Z []
  ∧ ∃ v s1 v' s' junk',
      SimpleVector_copy vec_123 demo_state = Ok v s1
      ∧ PushBack v (Obj 4%Z) s1 = Ok v' s'
      ∧ repr s' v' [1; 2; 3; 4]%Z junk'
      ∧ repr s' vec_123 [1; 2; 3]%Z [].
Proof.
  split; [apply repr_123|].
  destruct (SimpleVector_copy_independent demo_state vec_123 _ _ 4%Z repr_123)
    as (v & s1 & Hcopy & _ & _ & _ & _ & _ & Hpush).
  destruct Hpush as (v' & s' & junk' & Hrun & Hr & Ho);
    [vm_compute; congruence|].
  exists v, s1, v', s', junk'.
  split; [exact Hcopy|]. split; [exact Hrun|]. split; [exact Hr|exact Ho].
Defined.

Lemma SimpleVector_move_ctor_witness :
  repr demo_state vec_123 [1; 2; 3]%Z []
  ∧ SimpleVector_move true vec_123 demo_state
    = Ok (vec_123, SimpleVector_default) demo_state
  ∧ SimpleVector_move false vec_123 demo_state
    = Ok (vec_123, SimpleVector_default)
         (free_state (raw_ptr_ (items_ vec_123)) demo_state)
  ∧ SimpleVector_dtor vec_123
      (free_state (raw_ptr_ (items_ vec_123)) demo_state) = UB.
Proof.
  split; [apply repr_123|].
  destruct (SimpleVector_move_ctor demo_state vec_123 _ _ repr_123)
    as ((s' & Hrun & _) & Hcopy & _ & Hdangling).
  split; [exact Hrun|]. split; [exact Hcopy|].
  destruct Hdangling as (_ & _ & Hub); [vm_compute; congruence|exact Hub].
Defined.

Lemma swap_spec_witness :
  (repr demo_state vec_12 [1; 2]%Z [] ∧ repr demo_state vec_13 [1; 3]%Z [])
  ∧ repr demo_state (swap vec_12 vec_13).1 [1; 3]%Z []
  ∧ repr demo_state (swap vec_12 vec_13).2 [1; 2]%Z [].
Proof.
  split; [split; [apply repr_12|apply repr_13]|].
  destruct (swap_spec demo_state _ _ _ _ _ _ repr_12 repr_13) as (H1 & H2 & _).
  split; [exact H1|exact H2].
Defined.

Lemma Reserve_Resize_frame_witness :
  (repr demo_state vec_123 [1; 2; 3]%Z [] ∧ repr demo_state vec_12 [1; 2]%Z []
   ∧ separate vec_123 vec_12)
  ∧ ∀ v' s', Resize vec_123 5 demo_state = Ok v' s' → repr s' vec_12 [1; 2]%Z [].
Proof.
  split; [split; [apply repr_123|split; [apply repr_12|apply separate_123_12]]|].
  intros v' s' Hrun.
  destruct (Reserve_Resize_frame demo_state _ _ _ _ _ _ 5 repr_123 repr_12
              separate_123_12) as (_ & H).
  by destruct (H v' s' Hrun).
Defined.

Lemma Insert_Erase_frame_witness :
  (repr demo_state vec_123 ([1] ++ [2; 3])%Z []
   ∧ repr demo_state vec_12 [1; 2]%Z [] ∧ separate vec_123 vec_12)
  ∧ ∃ v' it s',
      Insert vec_123 (ptr_add (begin_ vec_123) 1) (Obj 9%Z) demo_state
      = Ok (v', it) s'
      ∧ repr s' vec_12 [1; 2]%Z [].
Proof.
  split; [split; [apply repr_123|split; [apply repr_12|apply separate_123_12]]|].
  destruct (Insert_Erase_frame demo_state vec_123 vec_12 [1]%Z [2; 3]%Z _ _ _
              9%Z repr_123 repr_12 separate_123_12) as (Hins & _).
  destruct Hins as (v' & it & s' & Hrun & _ & Hr & _);
    [right; vm_compute; congruence|].
  exists v', it, s'. split; [exact Hrun|exact Hr].
Defined.

Lemma subscript_store_witness :
  repr demo_state vec_123 [1; 2; 3]%Z []
  ∧ (∃ s', store (subscript vec_123 1) 9%Z demo_state = Ok tt s'
           ∧ repr s' vec_123 [1; 9; 3]%Z [])
  ∧ load (subscript vec_123 3) demo_state = UB.
Proof.
  split; [apply repr_123|].
  destruct (subscript_store demo_state vec_123 _ _ 1 9%Z repr_123) as (Hin & _).
  destruct (subscript_store demo_state vec_123 _ _ 3 9%Z repr_123) as (_ & Hout).
  split.
  - destruct Hin as (s' & Hrun & Hr & _); [vm_compute; congruence|].
    exists s'. split; [exact Hrun|exact Hr].
  - by destruct Hout as (Hload & _); [vm_compute; congruence|].
Defined.

Lemma begin_end_range_witness :
  repr demo_state vec_123 [1; 2; 3]%Z []
  ∧ std_distance (begin_ vec_123) (end_ vec_123) demo_state = Ok 3%Z demo_state
  ∧ load (ptr_add (begin_ vec_123) 2) demo_state = Ok 3%Z demo_state.
Proof.
  split; [apply repr_123|].
  destruct (begin_end_range demo_state vec_123 _ _ repr_123) as (Hd & _ & Hl).
  split; [exact Hd|]. exact (Hl 2 3%Z eq_refl).
Defined.

Lemma relational_trichotomy_witness :
  (repr demo_state vec_13 [1; 3]%Z [] ∧ repr demo_state vec_129 [1; 2; 9]%Z [])
  ∧ ∃ eq lt gt : bool,
      vec_eq vec_13 vec_129 demo_state = Ok eq demo_state
      ∧ vec_lt vec_13 vec_129 demo_state = Ok lt demo_state
      ∧ vec_gt vec_13 vec_129 demo_state = Ok gt demo_state
      ∧ (eq, lt, gt)
        ∈ [(true, false, false); (false, true, false); (false, false, true)].
Proof.
  split; [split; [apply repr_13|apply repr_129]|].
  destruct (relational_trichotomy demo_state vec_13 vec_129 _ _ _ _
              Z_eq_lawful Z_lt_asym repr_13 repr_129)
    as (eq & lt & gt & H1 & H2 & H3 & H4 & _).
  exists eq, lt, gt. split; [exact H1|]. split; [exact H2|].
  split; [exact H3|exact H4].
Defined.

Lemma self_assignment_witness :
  repr demo_state vec_123 [1; 2; 3]%Z []
  ∧ copy_assign vec_123 vec_123 demo_state = Ok vec_123 demo_state.
Proof.
  split; [apply repr_123|].
  destruct (self_assignment demo_state vec_123 _ _ repr_123) as (_ & H).
  exact (H Z_eq_refl).
Defined.

Lemma copy_assign_post_witness :
  (repr demo_state vec_123 [1; 2; 3]%Z [] ∧ repr demo_state vec_13 [1; 3]%Z []
   ∧ separate vec_123 vec_13)
  ∧ ∃ this' s',
      copy_assign vec_123 vec_13 demo_state = Ok this' s'
      ∧ vec_eq this' vec_13 s' = Ok true s'
      ∧ repr s' vec_13 [1; 3]%Z [].
Proof.
  split; [split; [apply repr_123|split; [apply repr_13|apply separate_123_13]]|].
  destruct (copy_assign_post demo_state vec_123 vec_13 _ _ _ _ Z_eq_refl
              repr_123 repr_13 separate_123_13)
    as (this' & s' & Hrun & Heq & _ & Hr).
  exists this', s'. split; [exact Hrun|]. split; [exact Heq|exact Hr].
Defined.

Lemma ArrayPtr_lifetime_witness :
  ∃ a (s1 s2 : state Z),
    ArrayPtr_new 2 heap0 = Ok a s1
    ∧ ArrayPtr_dtor a s1 = Ok tt s2
    ∧ heap s2 = heap heap0.
Proof.
  destruct (ArrayPtr_lifetime heap0 2)
    as (a & s1 & s2 & Hnew & _ & _ & Hd & Hh & _); [vm_compute; congruence|].
  exists a, s1, s2. split; [exact Hnew|]. split; [exact Hd|exact Hh].
Defined.

Lemma Clear_then_PushBack_witness :
  repr demo_state vec_123 [1; 2; 3]%Z []
  ∧ ∃ s' junk',
      PushBack_all (Clear vec_123) [7; 8]%Z demo_state = Ok (vec_at 2 2 3) s'
      ∧ repr s' (vec_at 2 2 3) [7; 8]%Z junk'
      ∧ trace s' = trace demo_state.
Proof.
  split; [apply repr_123|].
  destruct (Clear_then_PushBack demo_state vec_123 _ _ [7; 8]%Z repr_123)
    as (s' & junk' & _ & Hrun & Hr & Ht); [vm_compute; congruence|].
  exists s', junk'. split; [exact Hrun|]. split; [exact Hr|exact Ht].
Defined.

Lemma huge_repr : repr huge_state huge_vec (replicate huge_len 0%Z) [].
Proof.
  unfold repr, huge_state, huge_vec, vec_at, block_of. cbn [items_ raw_ptr_ size_ capacity_ heap].
  split; [apply lookup_singleton_eq|].
  rewrite length_replicate, Nat.add_0_r. unfold huge_len.
  rewrite N2Nat.id. split; [reflexivity|]. split; [reflexivity|].
  unfold max_alloc. lia.
Qed.

Lemma growth_failure_witness :
  repr huge_state huge_vec (replicate huge_len 0%Z ++ []) []
  ∧ PushBack huge_vec (Obj 1%Z) huge_state = Throw bad_alloc huge_state
  ∧ Resize vec_123 (2 ^ 63) demo_state = Throw bad_alloc demo_state.
Proof.
  assert (Hr : repr huge_state huge_vec (replicate huge_len 0%Z ++ []) [])
    by (rewrite app_nil_r; apply huge_repr).
  split; [exact Hr|]. split.
  - destruct (growth_failure huge_state huge_vec (replicate huge_len 0%Z) [] []
                1%Z Hr) as (Hins & _).
    destruct Hins as (_ & _ & Hpush); [reflexivity|reflexivity|exact Hpush].
  - destruct (growth_failure demo_state vec_123 [1; 2; 3]%Z [] [] 0%Z)
      as (_ & Hres); [apply repr_123|].
    apply Hres. reflexivity.
Defined.

Lemma PopBack_spec_witness :
  repr demo_state vec_123 [1; 2; 3]%Z []
  ∧ repr demo_state (PopBack vec_123) [1; 2]%Z [Some 3%Z]
  ∧ PopBack (SimpleVector_default) = SimpleVector_default.
Proof.
  split; [apply repr_123|].
  destruct (PopBack_spec demo_state vec_123 _ _ repr_123) as (_ & H).
  destruct (H [1; 2]%Z 3%Z eq_refl) as (Hr & _).
  split; [exact Hr|].
  destruct (PopBack_spec demo_state SimpleVector_default [] []) as (H0 & _).
  - repeat split. vm_compute. congruence.
  - by apply H0.
Defined.
